(** * Golf outings worker (src/cloudflare_worker/src/index.js)

    A shallow embedding of the request handlers of the worker and the
    properties of its group generator.

    Conventions of the embedding.
    - A JavaScript array is a [list]; an array held in a variable that the
      code could alias is a cell of the heap [gmap nat (list _)] (see
      [Generator.get_groups]).  An array has at most [2^32 - 1] elements:
      where the code creates one from a length it was given
      ([Generator.array_from]) a greater length is a RangeError, and the
      statements about the arrays that the store returns say so where it
      matters.  Running out of memory is not part of the model.
    - A JavaScript number that the code uses as an integer (a group index, the
      [number_of_groups] column, the [skill] column, both declared INTEGER in
      the schema) is a [Z]; a number that comes out of the JSON body of a
      request before it has been validated is a [Js.number], a rational or one
      of the non-finite values.
      A skill that is not an integer (see [Players.post_player]) is outside
      the model of the generator.
    - The player objects are never written to once the store has returned
      them; they are values, and only the arrays that hold them live in the
      heap.
    - [Math.random()] is a stream [nat -> Q]: call number [k] of a request
      returns [random k], a double of the interval [0, 1); the product of
      two numbers is rounded to a double ([Js.times]).
    - A string is the sequence of the bytes of its UTF-8 encoding.
    - The D1 store is the table it holds; a query that succeeds is a lookup.
      The object that [run()] resolves to has the keys [success], [meta] and
      [results], and no key [changes].  Failures of the store itself
      (connectivity) are not part of the model. *)

From Stdlib Require Import QArith Qround Qpower Lqa Ascii String.
From Stdlib Require Import DecimalString OrderedTypeEx DecimalNat.
From stdpp Require Import gmap strings list sorting.

Local Open Scope string_scope.
Local Open Scope list_scope.

(** ** JavaScript values, as far as the handlers inspect them *)

Module Js.

Inductive number :=
| Finite (q : Q)
| PosInfinity
| NegInfinity
| NaN.

Inductive value :=
| Undefined
| Null
| Bool (b : bool)
| Number (x : number)
| String (s : string)
| Object.

(** [v === undefined] *)
Definition is_undefined (v : value) : bool :=
  match v with Undefined => true | _ => false end.

(** [typeof v === 'number'] *)
Definition typeof_number (v : value) : bool :=
  match v with Number _ => true | _ => false end.

(** [typeof v === 'string'] *)
Definition typeof_string (v : value) : bool :=
  match v with String _ => true | _ => false end.

(** ToBoolean: [!v] is [negb (truthy v)]. *)
Definition truthy (v : value) : bool :=
  match v with
  | Undefined | Null => false
  | Bool b => b
  | Number (Finite q) => negb (Qeq_bool q 0)
  | Number NaN => false
  | Number _ => true
  | String s => negb (String.eqb s "")
  | Object => true
  end.

(** [x < c] and [x > c] for a number [x] and an integer literal [c]. *)
Definition num_lt (x : number) (c : Z) : bool :=
  match x with
  | Finite q => negb (Qle_bool (inject_Z c) q)
  | NegInfinity => true
  | PosInfinity | NaN => false
  end.

Definition num_gt (x : number) (c : Z) : bool :=
  match x with
  | Finite q => negb (Qle_bool q (inject_Z c))
  | PosInfinity => true
  | NegInfinity | NaN => false
  end.

(** The handlers compare a value with [<] and [>] only behind
    [typeof v !== 'number' ||], so the comparison is evaluated on numbers
    only; the other cases are never reached. *)
Definition lt (v : value) (c : Z) : bool :=
  match v with Number x => num_lt x c | _ => false end.

Definition gt (v : value) (c : Z) : bool :=
  match v with Number x => num_gt x c | _ => false end.

(** [Number.isInteger(v)] *)
Definition isInteger (v : value) : bool :=
  match v with
  | Number (Finite q) => Qeq_bool (inject_Z (Qfloor q)) q
  | _ => false
  end.

(** The integer a finite integral number denotes. *)
Definition to_Z (v : value) : Z :=
  match v with
  | Number (Finite q) => Qfloor q
  | _ => 0%Z
  end.

(** *** Arithmetic on doubles

    A finite number is the rational it denotes.  The product of two numbers
    is the double nearest to the product of the rationals, ties going to the
    even significand (IEEE 754 binary64, 53 bits of significand, exponents
    from -1074).  Overflow, from [2^1024] on, is not modelled: the handlers
    multiply a number below 1 by the length of an array. *)

(** The [e] with [2^e <= x < 2^(e + 1)], for a positive [x]. *)
Definition binade (x : Q) : Z :=
  let e := (Z.log2 (Qnum x) - Z.log2 (Zpos (Qden x)))%Z in
  if Qle_bool (2 ^ e) x then e else (e - 1)%Z.

(** The distance between two doubles next to each other around a positive
    [x]. *)
Definition ulp (x : Q) : Q := (2 ^ Z.max (binade x - 52) (-1074))%Q.

(** The integer nearest to [y]; half-way between two, the even one. *)
Definition round_half_even (y : Q) : Z :=
  let f := Qfloor y in
  match Qcompare (y - inject_Z f) (1 # 2) with
  | Lt => f
  | Gt => (f + 1)%Z
  | Eq => if Z.even f then f else (f + 1)%Z
  end.

(** The double nearest to a positive [x]. *)
Definition nearest (x : Q) : Q :=
  (inject_Z (round_half_even (x / ulp x)) * ulp x)%Q.

Definition to_double (x : Q) : Q :=
  match Qcompare x 0 with
  | Eq => 0%Q
  | Gt => nearest x
  | Lt => (- nearest (- x))%Q
  end.

(** The rationals that are doubles: [m * 2^e] with a significand [m] of 53
    bits. *)
Definition is_double (x : Q) : Prop :=
  exists m e : Z,
    (Z.abs m < 2 ^ 53)%Z /\ (-1074 <= e <= 971)%Z
    /\ (x == inject_Z m * 2 ^ e)%Q.

(** [a * b] *)
Definition times (a b : Q) : Q := to_double (a * b).

(** *** Strings

    A string is the sequence of the bytes of its UTF-8 encoding, as the body
    of a request and the store hold it. *)

(** The code points that [String.prototype.trim] strips (WhiteSpace and
    LineTerminator of ECMAScript), by the bytes of their UTF-8 encoding.
    In one byte: U+0009 to U+000D (TAB, LF, VT, FF, CR) and U+0020. *)
Definition is_white_space (c : ascii) : bool :=
  let n := nat_of_ascii c in
  (Nat.leb 9 n && Nat.leb n 13) || Nat.eqb n 32.

(** In two bytes: U+00A0 (C2 A0). *)
Definition is_white_space_2 (c1 c2 : ascii) : bool :=
  Nat.eqb (nat_of_ascii c1) 194 && Nat.eqb (nat_of_ascii c2) 160.

(** In three bytes: U+1680 (E1 9A 80), U+2000 to U+200A (E2 80 80 to 8A),
    U+2028 and U+2029 (E2 80 A8, A9), U+202F (E2 80 AF), U+205F (E2 81 9F),
    U+3000 (E3 80 80) and U+FEFF (EF BB BF). *)
Definition is_white_space_3 (c1 c2 c3 : ascii) : bool :=
  let n1 := nat_of_ascii c1 in
  let n2 := nat_of_ascii c2 in
  let n3 := nat_of_ascii c3 in
  (Nat.eqb n1 225 && Nat.eqb n2 154 && Nat.eqb n3 128)
  || (Nat.eqb n1 226 && Nat.eqb n2 128
      && ((Nat.leb 128 n3 && Nat.leb n3 138)
          || Nat.eqb n3 168 || Nat.eqb n3 169 || Nat.eqb n3 175))
  || (Nat.eqb n1 226 && Nat.eqb n2 129 && Nat.eqb n3 159)
  || (Nat.eqb n1 227 && Nat.eqb n2 128 && Nat.eqb n3 128)
  || (Nat.eqb n1 239 && Nat.eqb n2 187 && Nat.eqb n3 191).

(** The string without the white space in front of it.  With [backwards]
    the bytes are read as those of a string from its end, each code point
    last byte first. *)
Fixpoint strip (backwards : bool) (s : string) : string :=
  match s with
  | EmptyString => EmptyString
  | String.String c1 s1 =>
      if is_white_space c1 then strip backwards s1
      else
        match s1 with
        | EmptyString => s
        | String.String c2 s2 =>
            if (if backwards then is_white_space_2 c2 c1
                else is_white_space_2 c1 c2)
            then strip backwards s2
            else
              match s2 with
              | EmptyString => s
              | String.String c3 s3 =>
                  if (if backwards then is_white_space_3 c3 c2 c1
                      else is_white_space_3 c1 c2 c3)
                  then strip backwards s3
                  else s
              end
        end
  end.

Definition trimStart (s : string) : string := strip false s.

Definition trimEnd (s : string) : string :=
  String.rev (strip true (String.rev s)).

Definition trim (s : string) : string := trimEnd (trimStart s).

(** [typeof name !== 'string' || name.trim().length === 0] *)
Definition not_a_non_empty_string (v : value) : bool :=
  match v with
  | String s => Nat.eqb (String.length (trim s)) 0
  | _ => true
  end.

Definition string_of (v : value) : string :=
  match v with String s => s | _ => "" end.

End Js.

(** ** Responses of itty-router's [error(status, message)] and
     [json(payload, { status })] (status 200 when not given) *)

Inductive response (A : Type) :=
| Error (status : Z) (message : string)
| Json (status : Z) (payload : A).
Arguments Error {A} status message.
Arguments Json {A} status payload.

(** ** Player endpoints: validation of the request body

  The handlers are modelled up to the point where they hand the validated
  fields to the store. *)

Module Players.

(** What a handler does with a body: answer at once, or go on to the store
    with the fields it has accepted. *)
Inductive outcome (A : Type) :=
| Answer (r : response unit)
| ToStore (fields : A).
Arguments Answer {A} r.
Arguments ToStore {A} fields.

(** POST /api/players (index.js lines 31-39) *)
Definition post_player (name skill : Js.value) : outcome (string * Js.value) :=
  if negb (Js.truthy name) || Js.not_a_non_empty_string name then
    Answer (Error 400 "Player name is required and must be a non-empty string.")
  else if Js.is_undefined skill || negb (Js.typeof_number skill)
          || Js.lt skill 1 || Js.gt skill 10 then
    Answer
      (Error 400
         "Player skill is required and must be an integer between 1 and 10.")
  else ToStore (Js.string_of name, skill).

(** PUT /api/players/:id (index.js lines 89-127): the fields to update,
    [None] for a column the body leaves alone. *)
Definition put_player (id : string) (name skill : Js.value)
  : outcome (option string * option Js.value) :=
  if String.eqb id "" then
    Answer (Error 400 "Player ID is required.")
  else if negb (Js.truthy name) && Js.is_undefined skill then
    Answer (Error 400 "Either name or skill must be provided for an update.")
  else if negb (Js.is_undefined name) && Js.not_a_non_empty_string name then
    Answer (Error 400 "Player name must be a non-empty string if provided.")
  else if negb (Js.is_undefined skill)
          && (negb (Js.typeof_number skill)
              || Js.lt skill 1 || Js.gt skill 10) then
    Answer
      (Error 400
         "Player skill must be an integer between 1 and 10 if provided.")
  else
    let name_update :=
      if Js.is_undefined name then None else Some (Js.string_of name) in
    let skill_update :=
      if Js.is_undefined skill then None else Some skill in
    match name_update, skill_update with
    | None, None => Answer (Error 400 "No valid fields to update.")
    | _, _ => ToStore (name_update, skill_update)
    end.

(** [CHECK (skill >= 1 AND skill <= 10)] of the [players] table, on a number
    bound to the statement. *)
Definition table_check (skill : Js.value) : bool :=
  match skill with
  | Js.Number x => negb (Js.num_lt x 1) && negb (Js.num_gt x 10)
  | _ => false
  end.

(** A body whose skill the handlers were meant to accept: an integer from
    1 to 10. *)
Definition integer_1_to_10 (skill : Js.value) : Prop :=
  match skill with
  | Js.Number (Js.Finite q) =>
      exists n : Z, (1 <= n <= 10)%Z /\ (q == inject_Z n)%Q
  | _ => False
  end.

(** What the skill test of both handlers lets through: every number from 1 to
    10, integral or not (and NaN, which no JSON body contains). *)
Definition passes_skill_test (skill : Js.value) : Prop :=
  match skill with
  | Js.Number (Js.Finite q) => (1 <= q)%Q /\ (q <= 10)%Q
  | Js.Number Js.NaN => True
  | _ => False
  end.

End Players.

(** ** Outing endpoints and the [outings] table

    [CREATE TABLE outings (id TEXT PRIMARY KEY, name TEXT NOT NULL,
    number_of_groups INTEGER NOT NULL DEFAULT 3)]: a finite map from the id
    to the other two columns. *)

Module Outings.

Record outing := { name : string; number_of_groups : Z }.

(** The bodies of the answers; [Null] is [json(null)], what a handler sends
    when it hands the result of a [first()] that found no row to [json]. *)
Inductive payload :=
| Created (id name : string) (numberOfGroups : Z)
| Row (id : string) (o : outing)
| Null
| Message (m : string).

(** [typeof numberOfGroups !== 'number' || !Number.isInteger(numberOfGroups)
    || numberOfGroups < 1], the test of both POST and PUT. *)
Definition not_a_positive_integer (v : Js.value) : bool :=
  negb (Js.typeof_number v) || negb (Js.isInteger v) || Js.lt v 1.

(** POST /api/outings (index.js lines 210-233); [name] and [numberOfGroups]
    are the two keys the handler reads from the body, [Js.Undefined] for a
    key the body does not have; [id] is the value of [crypto.randomUUID()].
    An id already in the table violates the primary key: the INSERT throws
    and the handler answers 500.  (A body that is [null] makes the
    destructuring throw before the handler reads or writes anything; the
    model starts after it.) *)
Definition post_outing (db : gmap string outing) (id : string)
    (name numberOfGroups : Js.value) : gmap string outing * response payload :=
  if negb (Js.truthy name) || Js.not_a_non_empty_string name then
    (db, Error 400 "Outing name is required and must be a non-empty string.")
  else if negb (Js.is_undefined numberOfGroups)
          && not_a_positive_integer numberOfGroups then
    (db, Error 400 "Number of groups must be a positive integer if provided.")
  else
    let numberOfGroups :=
      if Js.is_undefined numberOfGroups then 3%Z else Js.to_Z numberOfGroups in
    match db !! id with
    | Some _ => (db, Error 500 "Failed to create outing")
    | None =>
        (<[id := {| name := Js.string_of name;
                    number_of_groups := numberOfGroups |}]> db,
         Json 201 (Created id (Js.string_of name) numberOfGroups))
    end.

(** [UPDATE outings SET ... WHERE id = ...] on the row found: a column is
    set when the handler has pushed it to [updates]. *)
Definition update_row (o : outing) (new_name : option string)
    (new_number_of_groups : option Z) : outing :=
  {| name := default (name o) new_name;
     number_of_groups := default (number_of_groups o) new_number_of_groups |}.

(** PUT /api/outings/:id (index.js lines 257-314).  The object that D1's
    [run()] resolves to keeps its counters under [meta]; it has no key
    [changes], so [info.changes] is [undefined], [info.changes === 0] is
    false whatever the UPDATE did, and the 404 of line 303 is never sent.
    For an id that is not in the table the UPDATE writes nothing, the SELECT
    finds no row and the handler answers [json(null)], status 200. *)
Definition put_outing (db : gmap string outing) (id : string)
    (name numberOfGroups : Js.value) : gmap string outing * response payload :=
  if String.eqb id "" then
    (db, Error 400 "Outing ID is required.")
  else if Js.is_undefined name && Js.is_undefined numberOfGroups then
    (db,
     Error 400 "Either name or numberOfGroups must be provided for an update.")
  else if negb (Js.is_undefined name) && Js.not_a_non_empty_string name then
    (db, Error 400 "Outing name must be a non-empty string if provided.")
  else if negb (Js.is_undefined numberOfGroups)
          && not_a_positive_integer numberOfGroups then
    (db, Error 400 "Number of groups must be a positive integer if provided.")
  else
    let name_update :=
      if Js.is_undefined name then None else Some (Js.string_of name) in
    let number_of_groups_update :=
      if Js.is_undefined numberOfGroups then None
      else Some (Js.to_Z numberOfGroups) in
    match name_update, number_of_groups_update with
    | None, None => (db, Error 400 "No valid fields to update.")
    | _, _ =>
        match db !! id with
        | None => (db, Json 200 Null)
        | Some o =>
            let o' := update_row o name_update number_of_groups_update in
            (<[id := o']> db, Json 200 (Row id o'))
        end
    end.

(** DELETE /api/outings/:id (index.js lines 317-335) *)
Definition delete_outing (db : gmap string outing) (id : string)
    : gmap string outing * response payload :=
  if String.eqb id "" then
    (db, Error 400 "Outing ID is required.")
  else
    match db !! id with
    | None => (db, Error 404 "Outing not found.")
    | Some _ => (delete id db, Json 200 (Message "Outing deleted successfully"))
    end.

(** A value of the body that is a positive integer. *)
Definition positive_integer (v : Js.value) : Prop :=
  match v with
  | Js.Number (Js.Finite q) => exists n : Z, (1 <= n)%Z /\ (q == inject_Z n)%Q
  | _ => False
  end.

(** The requests that write to the table. *)
Inductive request :=
| POST (id : string) (name numberOfGroups : Js.value)
| PUT (id : string) (name numberOfGroups : Js.value)
| DELETE (id : string).

Definition handle (db : gmap string outing) (req : request)
    : gmap string outing * response payload :=
  match req with
  | POST id name numberOfGroups => post_outing db id name numberOfGroups
  | PUT id name numberOfGroups => put_outing db id name numberOfGroups
  | DELETE id => delete_outing db id
  end.

(** The tables the worker can reach from the empty one. *)
Inductive reachable : gmap string outing -> Prop :=
| reachable_empty : reachable ∅
| reachable_handle db req : reachable db -> reachable (handle db req).1.

(** The table after a list of requests, oldest first. *)
Definition run (reqs : list request) : gmap string outing :=
  foldl (fun db req => (handle db req).1) ∅ reqs.

End Outings.

(** ** The records of the group generator *)

Module Player.
Record t := { id : string; name : string; skill : Z }.
End Player.

Module Group.
Record t := { name : string; players : list Player.t; totalSkill : Z }.
End Group.

(** ** GET /api/outings/:outingId/groups (index.js lines 443-537) *)

Module Generator.

Definition GOLF_GROUP_NAMES : list string :=
  [ "The Fairway Fanatics"; "The Driving Divas/Dudes"; "The Bogey Brigade";
    "The Ace Alliance"; "The Bunker Busters"; "The Caddy Crew";
    "The Eagle Enforcers"; "The Fore Horsemen"; "The Green Guardians";
    "The Hazard Heroes"; "The Iron Masters"; "The Julep Jubilees";
    "The Mulligan Monarchs"; "The Niblick Ninjas"; "The On-Course Originals";
    "The Pin Seekers"; "The Quagmire Conquerors"; "The Rough Riders";
    "The Sand Trappers"; "The Tee Time Titans"; "The Under Par Unicorns";
    "The Victory Vardon"; "The Wedge Wizards"; "The X-Factor";
    "The Yardage Yetis"; "The Zany Zephyrs" ].

(** [`${n}`] for a non-negative integer (below 10^21): its decimal digits. *)
Definition decimal (n : nat) : string :=
  NilZero.string_of_uint (Nat.to_uint n).

(** The [name] of group [i] (line 505).  An index outside the catalog would
    read [undefined], which [+] turns into that word; [i % length] never is. *)
Definition group_name (i : nat) : string :=
  (nth (i mod length GOLF_GROUP_NAMES) GOLF_GROUP_NAMES "undefined"
   ++ (if Nat.ltb 0 (i / length GOLF_GROUP_NAMES)
       then " (" ++ decimal (i / length GOLF_GROUP_NAMES + 1) ++ ")"
       else ""))%string.

(** The elements that the callback of [Array.from] makes, [(_, i) => ({ name,
    players: [], totalSkill: 0 })] for the indices below [numberOfGroups];
    below 1 there is none. *)
Definition new_groups (numberOfGroups : Z) : list Group.t :=
  map (fun i => {| Group.name := group_name i;
                   Group.players := [];
                   Group.totalSkill := 0 |})
      (seq 0 (Z.to_nat numberOfGroups)).

(** The largest length of an array, [2^32 - 1]. *)
Definition max_array_length : Z := 4294967295.

(** [Array.from({ length: numberOfGroups }, ...)] (line 503).  The length is
    an integer of the [number_of_groups] column; [Array.from] creates the
    array with that length before it calls the callback, and the [Array]
    constructor throws a RangeError for a length above [2^32 - 1]: [None] is
    that exception. *)
Definition array_from (numberOfGroups : Z) : option (list Group.t) :=
  if Z.ltb max_array_length numberOfGroups then None
  else Some (new_groups numberOfGroups).

(** *** Randomized mode: the Fisher-Yates loop (lines 489-492) *)

(** [Math.floor(r * (i + 1))]: the product is a product of doubles, rounded
    to a double before [Math.floor] sees it. *)
Definition random_index (r : Q) (i : nat) : nat :=
  Z.to_nat (Qfloor (Js.times r (inject_Z (Z.of_nat i + 1)))).

(** [[a[i], a[j]] = [a[j], a[i]]]: [a[i]] is written first.  Both indices are
    inside the array whenever the loop runs with draws that are doubles of
    [0, 1) (lemma [random_index_le]); outside that the model leaves the array
    as it is. *)
Definition swap {A : Type} (a : list A) (i j : nat) : list A :=
  match a !! i, a !! j with
  | Some x, Some y => <[j := x]> (<[i := y]> a)
  | _, _ => a
  end.

(** The loop from index [i] down to 1; [k] counts the calls of
    [Math.random()] made so far. *)
Fixpoint fisher_yates_loop {A : Type} (random : nat -> Q) (k i : nat)
    (a : list A) : list A :=
  match i with
  | O => a
  | S i' =>
      let j := random_index (random k) i in
      fisher_yates_loop random (S k) i' (swap a i j)
  end.

Definition fisher_yates {A : Type} (random : nat -> Q) (a : list A) : list A :=
  fisher_yates_loop random 0 (length a - 1) a.

(** The contract of [Math.random()]: every draw is a double of [0, 1). *)
Definition random_source (random : nat -> Q) : Prop :=
  forall k,
    Js.is_double (random k) /\ (0 <= random k)%Q /\ (random k < 1)%Q.

(** The indices a run of the loop picks, first pick first, and the index
    sequences the loop can pick from index [i] down: one index [j <= i] per
    step. *)
Fixpoint picks (random : nat -> Q) (k i : nat) : list nat :=
  match i with
  | O => []
  | S i' => random_index (random k) i :: picks random (S k) i'
  end.


(** The loop driven by the picked indices instead of the draws. *)
Fixpoint swaps {A : Type} (js : list nat) (i : nat) (a : list A) : list A :=
  match i, js with
  | S i', j :: js' => swaps js' i' (swap a i j)
  | _, _ => a
  end.

(** The [j]-th of the [m] slices of [0, 1): the draws [r] from [j / m] to
    [(j + 1) / m], of width [1 / m], whose exact product [r * m] has floor
    [j]. *)
Definition slice (r : Q) (j m : nat) : Prop :=
  (inject_Z (Z.of_nat j) <= r * inject_Z (Z.of_nat m))%Q
  /\ (r * inject_Z (Z.of_nat m) < inject_Z (Z.of_nat j + 1))%Q.

(** The slice without the last [2^-53] of it, from [j / m] to
    [(j + 1) / m - 2^-53], and the slice with the [2^-53] in front of it,
    from [j / m - 2^-53] to [(j + 1) / m]: the rounding of the product moves
    a draw across the ends of its slice by less than that. *)
Definition inner_slice (r : Q) (j m : nat) : Prop :=
  (inject_Z (Z.of_nat j) <= r * inject_Z (Z.of_nat m))%Q
  /\ (r * inject_Z (Z.of_nat m)
      <= inject_Z (Z.of_nat j + 1) - inject_Z (Z.of_nat m) * 2 ^ (-53))%Q.

Definition outer_slice (r : Q) (j m : nat) : Prop :=
  (inject_Z (Z.of_nat j) - inject_Z (Z.of_nat m) * 2 ^ (-53)
   < r * inject_Z (Z.of_nat m))%Q
  /\ (r * inject_Z (Z.of_nat m) < inject_Z (Z.of_nat j + 1))%Q.

(** The width of a slice among [m], and the volume of the box of draws that
    a sequence of picks of the loop on [n] elements stands for: the product
    of the widths [1 / n], [1 / (n - 1)], ..., [1 / 2]. *)
Definition slice_width (m : nat) : Q := 1 # Pos.of_nat m.

Definition box_volume (n : nat) : Q :=
  foldr Qmult 1%Q (map (fun k => slice_width (n - k)) (seq 0 (n - 1))).



(** *** Balanced mode: the sort (lines 495-500) *)

Section Balanced.

(** [String.prototype.localeCompare] of the host, negative, zero or
    positive. *)
Variable localeCompare : string -> string -> Z.

(** The comparator handed to [sort]. *)
Definition compare (a b : Player.t) : Z :=
  if negb (Z.eqb (Player.skill b) (Player.skill a))
  then (Player.skill b - Player.skill a)%Z
  else localeCompare (Player.name a) (Player.name b).

(** [Array.prototype.sort] is stable; the model is the stable insertion
    sort: an element goes in front of the first one it does not come after.
    For a comparator that orders the elements every stable sort returns this
    array; for any comparator the result is a permutation of the input. *)
Fixpoint insert (x : Player.t) (l : list Player.t) : list Player.t :=
  match l with
  | [] => [x]
  | y :: l' => if Z.leb (compare x y) 0 then x :: l else y :: insert x l'
  end.

Definition sort (l : list Player.t) : list Player.t := foldr insert [] l.

(** [a] does not come after [b]. *)
Definition not_after (a b : Player.t) : Prop := (compare a b <= 0)%Z.

(** A collation that orders the strings: any two are comparable, and the
    comparison is transitive. *)
Definition collation_orders : Prop :=
  (forall s t, (localeCompare s t <= 0)%Z \/ (localeCompare t s <= 0)%Z)
  /\ (forall s t u,
        (localeCompare s t <= 0)%Z -> (localeCompare t u <= 0)%Z ->
        (localeCompare s u <= 0)%Z).


End Balanced.

(** *** Distribution (lines 511-523) and totals (lines 526-528) *)

(** [groups[groupIndex].players.push({ id, name, skill });
    groups[groupIndex].totalSkill += player.skill;]  [None] is the TypeError
    of reading a property of [undefined]. *)
Definition assign (groups : list Group.t) (groupIndex : Z) (player : Player.t)
    : option (list Group.t) :=
  if Z.ltb groupIndex 0 then None
  else
    match groups !! Z.to_nat groupIndex with
    | None => None
    | Some g =>
        Some (<[Z.to_nat groupIndex :=
                 {| Group.name := Group.name g;
                    Group.players :=
                      Group.players g
                      ++ [ {| Player.id := Player.id player;
                              Player.name := Player.name player;
                              Player.skill := Player.skill player |} ];
                    Group.totalSkill :=
                      (Group.totalSkill g + Player.skill player)%Z |}]> groups)
    end.

(** [groupIndex += direction; if (groupIndex >= numberOfGroups ||
    groupIndex < 0) { direction *= -1; groupIndex += direction; }] *)
Definition advance (numberOfGroups groupIndex direction : Z) : Z * Z :=
  let groupIndex := (groupIndex + direction)%Z in
  if Z.geb groupIndex numberOfGroups || Z.ltb groupIndex 0 then
    let direction := (direction * -1)%Z in
    ((groupIndex + direction)%Z, direction)
  else (groupIndex, direction).

(** The [forEach] over [currentPlayers]. *)
Fixpoint distribute (numberOfGroups : Z) (currentPlayers : list Player.t)
    (groups : list Group.t) (groupIndex direction : Z)
    : option (list Group.t) :=
  match currentPlayers with
  | [] => Some groups
  | player :: rest =>
      match assign groups groupIndex player with
      | None => None
      | Some groups' =>
          let '(groupIndex', direction') :=
            advance numberOfGroups groupIndex direction in
          distribute numberOfGroups rest groups' groupIndex' direction'
      end
  end.

(** The group indices the loop visits for [n] players. *)
Fixpoint index_path (numberOfGroups : Z) (n : nat) (groupIndex direction : Z)
    : list Z :=
  match n with
  | O => []
  | S n' =>
      let '(groupIndex', direction') :=
        advance numberOfGroups groupIndex direction in
      groupIndex :: index_path numberOfGroups n' groupIndex' direction'
  end.

(** The loop seen from its path: each player goes to the group whose index
    the path gives. *)
Definition assign_along (targets : list (Z * Player.t))
    (groups : list Group.t) : option (list Group.t) :=
  foldl (fun acc target =>
           match acc with
           | None => None
           | Some groups => assign groups target.1 target.2
           end)
        (Some groups) targets.

(** [group.players.reduce((sum, p) => sum + p.skill, 0)] *)
Definition sum_skill (players : list Player.t) : Z :=
  foldl (fun sum p => (sum + Player.skill p)%Z) 0%Z players.

Definition recompute (group : Group.t) : Group.t :=
  {| Group.name := Group.name group;
     Group.players := Group.players group;
     Group.totalSkill := sum_skill (Group.players group) |}.

(** *** The handler *)

(** The JSON object of a successful answer; a key the object does not have
    is [None]. *)
Record groups_json := {
  outingName : string;
  numberOfGroups : option Z;
  groups : list Group.t;
  message : option string
}.

Section Handler.

Variable localeCompare : string -> string -> Z.

(** [db] is the outings table.  [heap] holds the arrays alive when the
    handler runs and [players] is the reference to the array the member query
    returned ([None] in the heap stands for a result that is not an array).
    [shuffle_param] is the [shuffle] key of the query string.  The handler
    returns the heap it leaves behind and its answer. *)
Definition get_groups (db : gmap string Outings.outing)
    (heap : gmap nat (list Player.t)) (outingId : string)
    (shuffle_param : option string) (players : nat) (random : nat -> Q)
    : gmap nat (list Player.t) * response groups_json :=
  let shuffle := bool_decide (shuffle_param = Some "true") in
  if String.eqb outingId "" then (heap, Error 400 "Outing ID is required.")
  else
    match db !! outingId with
    | None => (heap, Error 404 "Outing not found.")
    | Some outing =>
        let numberOfGroups := Outings.number_of_groups outing in
        let no_players :=
          (heap,
           Json 200 {| outingName := Outings.name outing;
                       numberOfGroups := None;
                       groups := [];
                       message :=
                         Some "No players in this outing to form groups." |}) in
        match heap !! players with
        | None => no_players
        | Some [] => no_players
        | Some elements =>
            (* let currentPlayers = [...players] *)
            let currentPlayers := fresh (dom heap) in
            let heap := <[currentPlayers := elements]> heap in
            let heap :=
              if shuffle then alter (fisher_yates random) currentPlayers heap
              else alter (sort localeCompare) currentPlayers heap in
            (* the exceptions of what follows are caught at line 533 *)
            match
              groups ← array_from numberOfGroups;
              distribute numberOfGroups (default [] (heap !! currentPlayers))
                groups 0 1
            with
            | None => (heap, Error 500 "Failed to generate groups")
            | Some groups =>
                (heap,
                 Json 200 {| outingName := Outings.name outing;
                             numberOfGroups := Some numberOfGroups;
                             groups := map recompute groups;
                             message := None |})
            end
        end
    end.

(** The order in which the handler distributes the players: the content of
    [currentPlayers] after the ordering step. *)
Definition ordered (shuffle_param : option string) (random : nat -> Q)
    (players : list Player.t) : list Player.t :=
  if bool_decide (shuffle_param = Some "true")
  then fisher_yates random players
  else sort localeCompare players.

End Handler.

(** *** The shape of the distribution *)

(** The groups that have already received their player of the current row
    when the loop stands at [groupIndex] with [direction]: the ones behind
    the index. *)
Definition served (groupIndex direction : Z) (i : nat) : bool :=
  if Z.eqb direction 1 then Z.ltb (Z.of_nat i) groupIndex
  else Z.ltb groupIndex (Z.of_nat i).

(** The index and the direction of the loop when [k] players have been
    assigned to [n] groups: rows of [n] players, even rows upwards, odd rows
    downwards. *)
Definition snake_state (n k : nat) : Z * Z :=
  if Nat.even (k / n) then (Z.of_nat (k mod n), 1%Z)
  else (Z.of_nat (n - 1 - k mod n), (-1)%Z).

Definition snake_index (n k : nat) : Z := (snake_state n k).1.

(** The players of [ps], the [k]-th of the distribution order first, that
    the snake gives to group [i] of [n]. *)
Fixpoint members (n i k : nat) (ps : list Player.t) : list Player.t :=
  match ps with
  | [] => []
  | p :: rest =>
      if Z.eqb (snake_index n k) (Z.of_nat i)
      then p :: members n i (S k) rest
      else members n i (S k) rest
  end.

(** The characters of a name in front of its first opening parenthesis, and
    the rest. *)
Fixpoint up_to_paren (s : string) : string :=
  match s with
  | EmptyString => EmptyString
  | String.String c s' =>
      if Ascii.eqb c "("%char then EmptyString
      else String.String c (up_to_paren s')
  end.

Fixpoint from_paren (s : string) : string :=
  match s with
  | EmptyString => EmptyString
  | String.String c s' => if Ascii.eqb c "("%char then s else from_paren s'
  end.

(** *** Values for worked examples *)

(** A collation to run the balanced mode with: comparison of the bytes. *)
Definition code_unit_compare (s t : string) : Z :=
  match String.compare s t with
  | Lt => (-1)%Z
  | Eq => 0%Z
  | Gt => 1%Z
  end.







(** A source of randomness that always draws one half. *)
Definition always_half (k : nat) : Q := 1 # 2.

Definition example_outings : gmap string Outings.outing :=
  {[ "o1" := {| Outings.name := "Open"; Outings.number_of_groups := 3 |} ]}.

Definition example_players : list Player.t :=
  [ {| Player.id := "p1"; Player.name := "Ann"; Player.skill := 4 |};
    {| Player.id := "p2"; Player.name := "Bob"; Player.skill := 9 |};
    {| Player.id := "p3"; Player.name := "Cy"; Player.skill := 4 |};
    {| Player.id := "p4"; Player.name := "Di"; Player.skill := 7 |} ].

Definition example_heap : gmap nat (list Player.t) :=
  {[ 0%nat := example_players ]}.

End Generator.

(** ** The store and the endpoints around it

    The three tables of the schema.  The store checks its constraints itself
    (primary keys, UNIQUE, CHECK, and the foreign keys with ON DELETE
    CASCADE, which D1 enforces); a statement that violates one throws, and
    the handlers turn that into an answer.  The object that [run()] resolves
    to has the keys [success], [meta] and [results]: [info.changes] is
    [undefined] and the branches behind [info.changes === 0] are never
    taken (the count of the rows written is [info.meta.changes]). *)

Module PlayerRow.
(** A row of [players] without its key [id]. *)
Record t := { name : string; name_lower : string; skill : Js.value }.
End PlayerRow.

Module Store.

(** A membership is the pair of an [outing_id] and a [player_id]. *)
Record t := {
  players : gmap string PlayerRow.t;
  outings : gmap string Outings.outing;
  outing_players : gset (string * string)
}.

Definition empty : t :=
  {| players := ∅; outings := ∅; outing_players := ∅ |}.

(** What [SELECT id, name, skill] returns of a row. *)
Definition select (entry : string * PlayerRow.t)
    : string * string * Js.value :=
  (entry.1, PlayerRow.name entry.2, PlayerRow.skill entry.2).

Inductive payload :=
| Created (id name name_lower : string) (skill : Js.value)
| Row (row : string * string * Js.value)
| Rows (results : list (string * string * Js.value))
| Null
| Message (m : string).

(** [ORDER BY name_lower ASC]: the order of the bytes.  [name_lower] is
    UNIQUE, so no two rows of a table tie. *)
Definition sorted_rows (rows : list (string * PlayerRow.t))
    : list (string * string * Js.value) :=
  select
  <$> merge_sort
        (fun e1 e2 =>
           Is_true (String.leb (PlayerRow.name_lower e1.2)
                               (PlayerRow.name_lower e2.2)))
        rows.

(** The double quote of the messages. *)
Definition quote : string := String.String (ascii_of_nat 34) EmptyString.

(** The validations answer with [error] only; this is their answer at the
    type of the endpoint. *)
Definition answer {A : Type} (r : response unit) : response A :=
  match r with
  | Error status message => Error status message
  | Json status _ => Error status ""
  end.

(** Is there a row whose [name_lower], or whose [name], is the given one? *)
Definition name_lower_taken (rows : gmap string PlayerRow.t) (s : string)
    : bool :=
  bool_decide (map_Exists (fun _ r => PlayerRow.name_lower r = s) rows).

Definition name_taken (rows : gmap string PlayerRow.t) (s : string) : bool :=
  bool_decide (map_Exists (fun _ r => PlayerRow.name r = s) rows).

Section Endpoints.

(** [String.prototype.toLowerCase] of the host. *)
Variable toLowerCase : string -> string.

(** When an UPDATE violates both [UNIQUE(name)] and [UNIQUE(name_lower)],
    whether the message of the error names [players.name_lower]. *)
Variable reports_name_lower : bool.

(** GET /api/players (index.js lines 21-28) *)
Definition get_players (st : t) : response payload :=
  Json 200 (Rows (sorted_rows (map_to_list (players st)))).

(** POST /api/players (lines 31-65); [id] is the value of
    [crypto.randomUUID()].  After the SELECT has found no row with this
    [name_lower], the INSERT can still violate the primary key or
    [UNIQUE(name)]; neither message names [players.name_lower], so the
    answer is 500. *)
Definition post_player (st : t) (id : string) (name skill : Js.value)
    : t * response payload :=
  match Players.post_player name skill with
  | Players.Answer r => (st, answer r)
  | Players.ToStore (name, skill) =>
      let name_lower := toLowerCase name in
      if name_lower_taken (players st) name_lower then
        (st,
         Error 409
           ("Player with name " ++ quote ++ name ++ quote
            ++ " already exists.")%string)
      else if bool_decide (is_Some (players st !! id))
              || name_taken (players st) name
              || negb (Players.table_check skill) then
        (st, Error 500 "Failed to add player")
      else
        ({| players :=
              <[id := {| PlayerRow.name := name;
                         PlayerRow.name_lower := name_lower;
                         PlayerRow.skill := skill |}]> (players st);
            outings := outings st;
            outing_players := outing_players st |},
         Json 201 (Created id name name_lower skill))
  end.

(** GET /api/players/:id (lines 68-86) *)
Definition get_player (st : t) (id : string) : response payload :=
  if String.eqb id "" then Error 400 "Player ID is required."
  else
    match players st !! id with
    | None => Error 404 "Player not found."
    | Some row => Json 200 (Row (select (id, row)))
    end.

(** PUT /api/players/:id (lines 89-164).  For an id that is not in the
    table the UPDATE touches no row and violates no constraint, the block
    behind [info.changes === 0] is skipped, the SELECT finds no row and the
    answer is [json(null)], status 200.  On a row the UPDATE checks the new
    values against the constraints of the table, the new name against the
    other rows. *)
Definition put_player (st : t) (id : string) (name skill : Js.value)
    : t * response payload :=
  match Players.put_player id name skill with
  | Players.Answer r => (st, answer r)
  | Players.ToStore (name_update, skill_update) =>
      match players st !! id with
      | None => (st, Json 200 Null)
      | Some row =>
          let others := delete id (players st) in
          let lower_taken :=
            from_option
              (fun n => name_lower_taken others (toLowerCase n)) false
              name_update in
          let exact_taken :=
            from_option (fun n => name_taken others n) false name_update in
          let check_fails :=
            from_option (fun v => negb (Players.table_check v)) false
              skill_update in
          if lower_taken && (negb exact_taken || reports_name_lower) then
            (st,
             Error 409
               ("Another player with name " ++ quote
                ++ default "" name_update ++ quote
                ++ " already exists.")%string)
          else if lower_taken || exact_taken || check_fails then
            (st, Error 500 "Failed to update player")
          else
            let row' :=
              {| PlayerRow.name := default (PlayerRow.name row) name_update;
                 PlayerRow.name_lower :=
                   default (PlayerRow.name_lower row)
                     (toLowerCase <$> name_update);
                 PlayerRow.skill :=
                   default (PlayerRow.skill row) skill_update |} in
            ({| players := <[id := row']> (players st);
                outings := outings st;
                outing_players := outing_players st |},
             Json 200 (Row (select (id, row'))))
      end
  end.

(** DELETE /api/players/:id (lines 167-194): the memberships of the player
    first, then the player. *)
Definition delete_player (st : t) (id : string) : t * response payload :=
  if String.eqb id "" then (st, Error 400 "Player ID is required.")
  else
    match players st !! id with
    | None => (st, Error 404 "Player not found.")
    | Some _ =>
        ({| players := delete id (players st);
            outings := outings st;
            outing_players :=
              filter (fun m => m.2 <> id) (outing_players st) |},
         Json 200 (Message "Player deleted successfully"))
    end.

(** GET /api/outings/:id (lines 236-254) *)
Definition get_outing (st : t) (id : string) : response Outings.payload :=
  if String.eqb id "" then Error 400 "Outing ID is required."
  else
    match outings st !! id with
    | None => Error 404 "Outing not found."
    | Some o => Json 200 (Outings.Row id o)
    end.

(** POST /api/outings and PUT /api/outings/:id touch the outings table
    only. *)
Definition post_outing (st : t) (id : string)
    (name numberOfGroups : Js.value) : t * response Outings.payload :=
  let '(outings', r) :=
    Outings.post_outing (outings st) id name numberOfGroups in
  ({| players := players st; outings := outings';
      outing_players := outing_players st |}, r).

Definition put_outing (st : t) (id : string)
    (name numberOfGroups : Js.value) : t * response Outings.payload :=
  let '(outings', r) :=
    Outings.put_outing (outings st) id name numberOfGroups in
  ({| players := players st; outings := outings';
      outing_players := outing_players st |}, r).

(** DELETE /api/outings/:id (lines 317-335): the DELETE of the row takes
    the memberships of the outing with it (ON DELETE CASCADE). *)
Definition delete_outing (st : t) (id : string)
    : t * response Outings.payload :=
  if String.eqb id "" then (st, Error 400 "Outing ID is required.")
  else
    match outings st !! id with
    | None => (st, Error 404 "Outing not found.")
    | Some _ =>
        ({| players := players st;
            outings := delete id (outings st);
            outing_players :=
              filter (fun m => m.1 <> id) (outing_players st) |},
         Json 200 (Outings.Message "Outing deleted successfully"))
    end.

(** The rows of the players of an outing: the join of [players] and
    [outing_players]. *)
Definition members (st : t) (outingId : string)
    : list (string * PlayerRow.t) :=
  filter (fun e => (outingId, e.1) ∈ outing_players st)
         (map_to_list (players st)).

(** GET /api/outings/:outingId/players (lines 341-363) *)
Definition get_outing_players (st : t) (outingId : string)
    : response payload :=
  if String.eqb outingId "" then Error 400 "Outing ID is required."
  else
    match outings st !! outingId with
    | None => Error 404 "Outing not found."
    | Some _ => Json 200 (Rows (sorted_rows (members st outingId)))
    end.

(** POST /api/outings/:outingId/players (lines 366-412); [playerId] is the
    key of that name of the body. *)
Definition post_outing_player (st : t) (outingId : string)
    (playerId : Js.value) : t * response payload :=
  if String.eqb outingId "" then (st, Error 400 "Outing ID is required.")
  else if negb (Js.truthy playerId) || negb (Js.typeof_string playerId) then
    (st, Error 400 "Player ID is required.")
  else
    let playerId := Js.string_of playerId in
    match outings st !! outingId with
    | None =>
        (st,
         Error 404 ("Outing with ID " ++ outingId ++ " not found.")%string)
    | Some _ =>
        match players st !! playerId with
        | None =>
            (st,
             Error 404
               ("Player with ID " ++ playerId ++ " not found.")%string)
        | Some _ =>
            if bool_decide ((outingId, playerId) ∈ outing_players st) then
              (st, Error 409 "Player is already in this outing.")
            else
              ({| players := players st;
                  outings := outings st;
                  outing_players :=
                    {[ (outingId, playerId) ]} ∪ outing_players st |},
               Json 201 (Message "Player added to outing successfully"))
        end
    end.

(** DELETE /api/outings/:outingId/players/:playerId (lines 415-439).  The
    test [info.changes === 0] of line 432 is false also when the DELETE has
    found no row: the answer is 200 for a pair that is not in the table. *)
Definition delete_outing_player (st : t) (outingId playerId : string)
    : t * response payload :=
  if String.eqb outingId "" || String.eqb playerId "" then
    (st, Error 400 "Outing ID and Player ID are required.")
  else
    ({| players := players st;
        outings := outings st;
        outing_players := outing_players st ∖ {[ (outingId, playerId) ]} |},
     Json 200 (Message "Player removed from outing successfully")).

(** The requests that write, and the worker as a machine on the store.  The
    values of a body come from [request.json()]: no NaN among them. *)
Inductive request :=
| PostPlayer (id : string) (name skill : Js.value)
| PutPlayer (id : string) (name skill : Js.value)
| DeletePlayer (id : string)
| PostOuting (id : string) (name numberOfGroups : Js.value)
| PutOuting (id : string) (name numberOfGroups : Js.value)
| DeleteOuting (id : string)
| PostOutingPlayer (outingId : string) (playerId : Js.value)
| DeleteOutingPlayer (outingId playerId : string).

Definition status {A : Type} (r : response A) : Z :=
  match r with
  | Error status _ => status
  | Json status _ => status
  end.

Definition handle (st : t) (req : request) : t * Z :=
  match req with
  | PostPlayer id name skill =>
      let '(st', r) := post_player st id name skill in (st', status r)
  | PutPlayer id name skill =>
      let '(st', r) := put_player st id name skill in (st', status r)
  | DeletePlayer id =>
      let '(st', r) := delete_player st id in (st', status r)
  | PostOuting id name numberOfGroups =>
      let '(st', r) := post_outing st id name numberOfGroups in
      (st', status r)
  | PutOuting id name numberOfGroups =>
      let '(st', r) := put_outing st id name numberOfGroups in
      (st', status r)
  | DeleteOuting id =>
      let '(st', r) := delete_outing st id in (st', status r)
  | PostOutingPlayer outingId playerId =>
      let '(st', r) := post_outing_player st outingId playerId in
      (st', status r)
  | DeleteOutingPlayer outingId playerId =>
      let '(st', r) := delete_outing_player st outingId playerId in
      (st', status r)
  end.

Definition from_json (req : request) : Prop :=
  match req with
  | PostPlayer _ _ skill | PutPlayer _ _ skill =>
      skill <> Js.Number Js.NaN
  | _ => True
  end.

Inductive reachable : t -> Prop :=
| reachable_empty : reachable empty
| reachable_handle st req :
    reachable st -> from_json req -> reachable (handle st req).1.

Definition run (reqs : list request) : t :=
  foldl (fun st req => (handle st req).1) empty reqs.

(** What the schema and the handlers keep true of the store. *)
Record well_formed (st : t) : Prop := {
  lower_of_name :
    forall id r, players st !! id = Some r ->
      PlayerRow.name_lower r = toLowerCase (PlayerRow.name r);
  lower_unique :
    forall id1 id2 r1 r2,
      players st !! id1 = Some r1 -> players st !! id2 = Some r2 ->
      PlayerRow.name_lower r1 = PlayerRow.name_lower r2 -> id1 = id2;
  skill_in_range :
    forall id r, players st !! id = Some r ->
      exists q, PlayerRow.skill r = Js.Number (Js.Finite q)
                /\ (1 <= q)%Q /\ (q <= 10)%Q;
  members_exist :
    forall o p, (o, p) ∈ outing_players st ->
      is_Some (outings st !! o) /\ is_Some (players st !! p);
  groups_positive :
    map_Forall (fun _ o => (1 <= Outings.number_of_groups o)%Z) (outings st)
}.

End Endpoints.

(** *** Values for worked examples *)

(** Lower-casing of the 26 letters of the 7-bit characters. *)
Definition lower_ascii (c : ascii) : ascii :=
  let n := nat_of_ascii c in
  if Nat.leb 65 n && Nat.leb n 90 then ascii_of_nat (n + 32) else c.

Fixpoint lower (s : string) : string :=
  match s with
  | EmptyString => EmptyString
  | String.String c s' => String.String (lower_ascii c) (lower s')
  end.

Definition number (n : Z) : Js.value := Js.Number (Js.Finite (inject_Z n)).

Definition example_requests : list request :=
  [ PostPlayer "p1" (Js.String "Bob") (number 7);
    PostPlayer "p2" (Js.String "Ann") (number 3);
    PostOuting "o1" (Js.String "Open") Js.Undefined;
    PostOutingPlayer "o1" (Js.String "p1");
    PostOutingPlayer "o1" (Js.String "p2") ].

Definition example_store : t := run lower true example_requests.

End Store.

(** * Properties *)

(** ** Validation of a player's skill *)

Lemma num_lt_spec q c : Js.num_lt (Js.Finite q) c = true <-> (q < inject_Z c)%Q.
Proof.
  unfold Js.num_lt. rewrite negb_true_iff.
  destruct (Qle_bool (inject_Z c) q) eqn:E.
  - apply Qle_bool_iff in E. split; [discriminate | intros H].
    exfalso. exact (Qlt_not_le _ _ H E).
  - split; [intros _ | reflexivity].
    apply Qnot_le_lt. intros H. apply Qle_bool_iff in H. congruence.
Qed.

Lemma num_gt_spec q c : Js.num_gt (Js.Finite q) c = true <-> (inject_Z c < q)%Q.
Proof.
  unfold Js.num_gt. rewrite negb_true_iff.
  destruct (Qle_bool q (inject_Z c)) eqn:E.
  - apply Qle_bool_iff in E. split; [discriminate | intros H].
    exfalso. exact (Qlt_not_le _ _ H E).
  - split; [intros _ | reflexivity].
    apply Qnot_le_lt. intros H. apply Qle_bool_iff in H. congruence.
Qed.

Lemma skill_test_spec skill :
  Js.is_undefined skill || negb (Js.typeof_number skill)
  || Js.lt skill 1 || Js.gt skill 10 = false
  <-> Players.passes_skill_test skill.
Proof.
  destruct skill as [| | b | [q | | |] | s |];
    try (split; [discriminate | intros []]);
    try (split; [intros _; exact I | reflexivity]).
  change (Js.num_lt (Js.Finite q) 1 || Js.num_gt (Js.Finite q) 10 = false
          <-> (1 <= q)%Q /\ (q <= 10)%Q).
  rewrite orb_false_iff. split.
  - intros [H1 H2]. split; apply Qnot_lt_le; intros H.
    + apply (num_lt_spec q 1) in H. congruence.
    + apply (num_gt_spec q 10) in H. congruence.
  - intros [H1 H2]. split.
    + destruct (Js.num_lt (Js.Finite q) 1) eqn:E; [| reflexivity].
      apply num_lt_spec in E. exfalso. exact (Qlt_not_le _ _ E H1).
    + destruct (Js.num_gt (Js.Finite q) 10) eqn:E; [| reflexivity].
      apply num_gt_spec in E. exfalso. exact (Qlt_not_le _ _ E H2).
Qed.

(** POST answers 400 for every skill outside the test. *)
Lemma post_player_rejects name skill :
  ~ Players.passes_skill_test skill ->
  exists message, Players.post_player name skill
                  = Players.Answer (Error 400 message).
Proof.
  intros H. unfold Players.post_player.
  destruct (negb (Js.truthy name) || Js.not_a_non_empty_string name);
    [eauto |].
  destruct (Js.is_undefined skill || negb (Js.typeof_number skill)
            || Js.lt skill 1 || Js.gt skill 10) eqn:E; [eauto |].
  apply skill_test_spec in E. contradiction.
Qed.

(** C4: the claim says that POST /api/players and PUT /api/players/:id reject
    with 400 every skill that is not an integer between 1 and 10, 5.5 among
    them.  The code does not: with the skill 5.5 (the rational 11/2), which is
    not an integer from 1 to 10, both handlers pass their validation and hand
    the value to the store, whose CHECK constraint lets it in as well. *)
Theorem skill_5_5_reaches_the_store :
  let skill := Js.Number (Js.Finite (11 # 2)) in
  ~ Players.integer_1_to_10 skill
  /\ Players.post_player (Js.String "Al") skill = Players.ToStore ("Al", skill)
  /\ Players.put_player "p1" Js.Undefined skill
     = Players.ToStore (None, Some skill)
  /\ Players.table_check skill = true.
Proof.
  simpl. split; [| repeat split; reflexivity].
  intros (n & Hn & Hq). unfold Qeq in Hq. simpl in Hq. lia.
Qed.

(** ** The outings table never holds a group count below 1 *)

Lemma isInteger_spec q :
  Js.isInteger (Js.Number (Js.Finite q)) = true
  <-> (q == inject_Z (Qfloor q))%Q.
Proof.
  simpl. rewrite Qeq_bool_iff. split; intros H; symmetry; exact H.
Qed.

Lemma not_a_positive_integer_spec v :
  Outings.not_a_positive_integer v = false <-> Outings.positive_integer v.
Proof.
  unfold Outings.not_a_positive_integer.
  destruct v as [| | b | [q | | |] | s |];
    try (split; [discriminate | intros []]).
  change (negb (Js.isInteger (Js.Number (Js.Finite q)))
          || Js.num_lt (Js.Finite q) 1 = false
          <-> exists n : Z, (1 <= n)%Z /\ (q == inject_Z n)%Q).
  rewrite orb_false_iff, negb_false_iff, isInteger_spec. split.
  - intros [Hint Hlt]. exists (Qfloor q). split; [| exact Hint].
    rewrite Zle_Qle, <- Hint. apply Qnot_lt_le. intros H.
    apply (num_lt_spec q 1) in H. congruence.
  - intros (n & Hn & Hq). split.
    + rewrite Hq at 1. now rewrite (Qfloor_comp _ _ Hq), Qfloor_Z.
    + destruct (Js.num_lt (Js.Finite q) 1) eqn:E; [| reflexivity].
      apply num_lt_spec in E. rewrite Hq, <- Zlt_Qlt in E. lia.
Qed.

Lemma positive_integer_to_Z v :
  Outings.positive_integer v -> (1 <= Js.to_Z v)%Z.
Proof.
  intros H. destruct v as [| | b | [q | | |] | s |]; try contradiction.
  destruct H as (n & Hn & Hq). simpl.
  now rewrite (Qfloor_comp _ _ Hq), Qfloor_Z.
Qed.

(** The group count a request that passed the test puts in the table. *)
Lemma accepted_number_of_groups v :
  negb (Js.is_undefined v) && Outings.not_a_positive_integer v = false ->
  (1 <= (if Js.is_undefined v then 3 else Js.to_Z v))%Z.
Proof.
  destruct (Js.is_undefined v); simpl; [lia |].
  intros H. now apply positive_integer_to_Z, not_a_positive_integer_spec.
Qed.

Lemma handle_preserves db req :
  map_Forall (fun _ o => (1 <= Outings.number_of_groups o)%Z) db ->
  map_Forall (fun _ o => (1 <= Outings.number_of_groups o)%Z)
             (Outings.handle db req).1.
Proof.
  intros Hdb.
  destruct req as [id name n | id name n | id]; simpl.
  - unfold Outings.post_outing.
    destruct (negb (Js.truthy name) || Js.not_a_non_empty_string name);
      [exact Hdb |].
    destruct (negb (Js.is_undefined n) && Outings.not_a_positive_integer n)
      eqn:E; [exact Hdb |].
    destruct (db !! id); [exact Hdb |]. simpl.
    apply map_Forall_insert_2; [| exact Hdb].
    simpl. now apply accepted_number_of_groups.
  - unfold Outings.put_outing.
    destruct (String.eqb id ""); [exact Hdb |].
    destruct (Js.is_undefined name && Js.is_undefined n); [exact Hdb |].
    destruct (negb (Js.is_undefined name) && Js.not_a_non_empty_string name);
      [exact Hdb |].
    destruct (negb (Js.is_undefined n) && Outings.not_a_positive_integer n)
      eqn:E; [exact Hdb |].
    assert (Hrow : forall o, db !! id = Some o ->
              (1 <= Outings.number_of_groups
                      (Outings.update_row o
                         (if Js.is_undefined name then None
                          else Some (Js.string_of name))
                         (if Js.is_undefined n then None
                          else Some (Js.to_Z n))))%Z).
    { intros o Ho. simpl. destruct (Js.is_undefined n) eqn:Eu; simpl.
      - exact (Hdb id o Ho).
      - simpl in E.
        now apply positive_integer_to_Z, not_a_positive_integer_spec. }
    destruct (Js.is_undefined name), (Js.is_undefined n);
      try exact Hdb;
      (destruct (db !! id) as [o |] eqn:Ho; [| exact Hdb]);
      (apply map_Forall_insert_2; [exact (Hrow o eq_refl) | exact Hdb]).
  - unfold Outings.delete_outing.
    destruct (String.eqb id ""); [exact Hdb |].
    destruct (db !! id); [| exact Hdb]. simpl.
    now apply map_Forall_delete.
Qed.

Lemma reachable_positive db :
  Outings.reachable db ->
  map_Forall (fun _ o => (1 <= Outings.number_of_groups o)%Z) db.
Proof.
  induction 1 as [| db req _ IH].
  - apply map_Forall_empty.
  - now apply handle_preserves.
Qed.

Lemma run_reachable reqs : Outings.reachable (Outings.run reqs).
Proof.
  unfold Outings.run. induction reqs as [| req reqs IH] using rev_ind.
  - constructor.
  - rewrite foldl_app. simpl. now constructor.
Qed.

(** C10: every row of a table the worker can reach has [number_of_groups]
    at least 1.  From such a table, a creation that omits [numberOfGroups]
    stores 3, and a creation or an update that provides a value which is not
    a positive integer is answered 400 and leaves the table as it is. *)
Theorem stored_number_of_groups_positive db :
  Outings.reachable db ->
  (forall id o, db !! id = Some o -> (1 <= Outings.number_of_groups o)%Z)
  /\ (forall id name,
        negb (Js.truthy name) || Js.not_a_non_empty_string name = false ->
        db !! id = None ->
        Outings.post_outing db id name Js.Undefined
        = (<[id := {| Outings.name := Js.string_of name;
                      Outings.number_of_groups := 3 |}]> db,
           Json 201 (Outings.Created id (Js.string_of name) 3)))
  /\ (forall id name v,
        v <> Js.Undefined -> ~ Outings.positive_integer v ->
        exists message,
          Outings.post_outing db id name v = (db, Error 400 message))
  /\ (forall id name v,
        v <> Js.Undefined -> ~ Outings.positive_integer v ->
        exists message,
          Outings.put_outing db id name v = (db, Error 400 message)).
Proof.
  intros Hdb. split; [| split; [| split]].
  - intros id o. apply (reachable_positive db Hdb).
  - intros id name Hname Hid. unfold Outings.post_outing.
    now rewrite Hname, Hid.
  - intros id name v Hv Hn. unfold Outings.post_outing.
    destruct (negb (Js.truthy name) || Js.not_a_non_empty_string name);
      [eauto |].
    destruct (Outings.not_a_positive_integer v) eqn:E.
    + destruct v; try contradiction; simpl; eauto.
    + now apply not_a_positive_integer_spec in E.
  - intros id name v Hv Hn. unfold Outings.put_outing.
    destruct (String.eqb id ""); [eauto |].
    destruct (Js.is_undefined name && Js.is_undefined v); [eauto |].
    destruct (negb (Js.is_undefined name) && Js.not_a_non_empty_string name);
      [eauto |].
    destruct (Outings.not_a_positive_integer v) eqn:E.
    + destruct v; try contradiction; simpl; eauto.
    + now apply not_a_positive_integer_spec in E.
Qed.

Lemma stored_number_of_groups_positive_witness :
  let db := Outings.run [Outings.POST "o1" (Js.String "Open") Js.Undefined;
                         Outings.PUT "o1" Js.Undefined
                           (Js.Number (Js.Finite (inject_Z 4)))] in
  Outings.reachable db
  /\ db !! "o1" = Some {| Outings.name := "Open";
                          Outings.number_of_groups := 4 |}
  /\ (1 <= 4)%Z.
Proof.
  intros db.
  assert (Hr : Outings.reachable db) by apply run_reachable.
  assert (Hl : db !! "o1" = Some {| Outings.name := "Open";
                                    Outings.number_of_groups := 4 |})
    by (vm_compute; reflexivity).
  split; [exact Hr | split; [exact Hl |]].
  exact (proj1 (stored_number_of_groups_positive db Hr) "o1" _ Hl).
Defined.

(** ** Group names *)

Lemma catalog_length : length Generator.GOLF_GROUP_NAMES = 26.
Proof. reflexivity. Qed.

Lemma new_groups_names numberOfGroups :
  map Group.name (Generator.new_groups numberOfGroups)
  = map Generator.group_name (seq 0 (Z.to_nat numberOfGroups)).
Proof. unfold Generator.new_groups. now rewrite map_map. Qed.

Lemma new_groups_length numberOfGroups :
  length (Generator.new_groups numberOfGroups) = Z.to_nat numberOfGroups.
Proof. unfold Generator.new_groups. now rewrite length_map, length_seq. Qed.




(** ** The handler, branch by branch *)

Section HandlerFacts.

Variable localeCompare : string -> string -> Z.

Lemma get_groups_run db heap outingId shuffle_param players random
    outing elements :
  outingId <> "" ->
  db !! outingId = Some outing ->
  heap !! players = Some elements ->
  elements <> [] ->
  (Outings.number_of_groups outing <= Generator.max_array_length)%Z ->
  Generator.get_groups localeCompare db heap outingId shuffle_param players
    random
  = (<[fresh (dom heap) :=
        Generator.ordered localeCompare shuffle_param random elements]> heap,
     match
       Generator.distribute (Outings.number_of_groups outing)
         (Generator.ordered localeCompare shuffle_param random elements)
         (Generator.new_groups (Outings.number_of_groups outing)) 0 1
     with
     | None => Error 500 "Failed to generate groups"
     | Some groups =>
         Json 200
           {| Generator.outingName := Outings.name outing;
              Generator.numberOfGroups :=
                Some (Outings.number_of_groups outing);
              Generator.groups := map Generator.recompute groups;
              Generator.message := None |}
     end).
Proof.
  intros Hid Hdb Hheap Hne Hmax.
  unfold Generator.get_groups, Generator.ordered, Generator.array_from.
  apply String.eqb_neq in Hid. rewrite Hid, Hdb, Hheap.
  destruct elements as [| p ps]; [contradiction |].
  rewrite (proj2 (Z.ltb_ge _ _) Hmax).
  destruct (bool_decide (shuffle_param = Some "true"));
    rewrite alter_insert_eq, lookup_insert_eq; simpl;
    match goal with |- context [Generator.distribute ?n ?l ?g ?i ?d] =>
      destruct (Generator.distribute n l g i d) end; reflexivity.
Qed.

(** From [2^32] groups on [Array.from] throws: the copy of the players is
    made and ordered, and the handler answers 500. *)
Lemma get_groups_range_error db heap outingId shuffle_param players random
    outing elements :
  outingId <> "" ->
  db !! outingId = Some outing ->
  heap !! players = Some elements ->
  elements <> [] ->
  (Generator.max_array_length < Outings.number_of_groups outing)%Z ->
  Generator.get_groups localeCompare db heap outingId shuffle_param players
    random
  = (<[fresh (dom heap) :=
        Generator.ordered localeCompare shuffle_param random elements]> heap,
     Error 500 "Failed to generate groups").
Proof.
  intros Hid Hdb Hheap Hne Hmax.
  unfold Generator.get_groups, Generator.ordered, Generator.array_from.
  apply String.eqb_neq in Hid. rewrite Hid, Hdb, Hheap.
  destruct elements as [| p ps]; [contradiction |].
  rewrite (proj2 (Z.ltb_lt _ _) Hmax).
  destruct (bool_decide (shuffle_param = Some "true"));
    now rewrite alter_insert_eq.
Qed.

(** Whatever the group count, the handler leaves the ordered copy of the
    players in a fresh cell. *)
Lemma get_groups_heap db heap outingId shuffle_param players random
    outing elements :
  outingId <> "" ->
  db !! outingId = Some outing ->
  heap !! players = Some elements ->
  elements <> [] ->
  (Generator.get_groups localeCompare db heap outingId shuffle_param players
     random).1
  = <[fresh (dom heap) :=
       Generator.ordered localeCompare shuffle_param random elements]> heap.
Proof.
  intros Hid Hdb Hheap Hne.
  destruct (Z.le_gt_cases (Outings.number_of_groups outing)
              Generator.max_array_length) as [Hmax | Hmax].
  - now erewrite get_groups_run by eassumption.
  - now erewrite get_groups_range_error by eassumption.
Qed.

End HandlerFacts.

(** ** The two orderings are permutations of the input *)

Lemma insert_swaps_out {A : Type} (l : list A) i x y :
  l !! i = Some y -> x :: l ≡ₚ y :: <[i := x]> l.
Proof.
  intros H. rewrite insert_take_drop by (eapply lookup_lt_Some; eauto).
  rewrite <- (take_drop_middle l i y H) at 1.
  rewrite <- !Permutation_middle. apply perm_swap.
Qed.

Lemma swap_Permutation {A : Type} (a : list A) i j :
  Generator.swap a i j ≡ₚ a.
Proof.
  unfold Generator.swap.
  destruct (a !! i) as [x |] eqn:Hi; [| reflexivity].
  destruct (a !! j) as [y |] eqn:Hj; [| reflexivity].
  assert (Hb : <[i := y]> a !! j = Some y).
  { destruct (decide (i = j)) as [-> | Hne].
    - apply list_lookup_insert_eq. eapply lookup_lt_Some; eauto.
    - now rewrite list_lookup_insert_ne. }
  apply (Permutation_cons_inv (a := y)).
  rewrite <- (insert_swaps_out _ j x y Hb).
  symmetry. now apply insert_swaps_out.
Qed.

Lemma fisher_yates_loop_Permutation {A : Type} random i :
  forall k (a : list A), Generator.fisher_yates_loop random k i a ≡ₚ a.
Proof.
  induction i as [| i IH]; intros k a; simpl; [reflexivity |].
  rewrite IH. apply swap_Permutation.
Qed.

Lemma fisher_yates_Permutation {A : Type} random (a : list A) :
  Generator.fisher_yates random a ≡ₚ a.
Proof. apply fisher_yates_loop_Permutation. Qed.

Section SortFacts.

Variable localeCompare : string -> string -> Z.

Lemma insert_Permutation x l :
  Generator.insert localeCompare x l ≡ₚ x :: l.
Proof.
  induction l as [| y l IH]; simpl; [reflexivity |].
  destruct (Z.leb (Generator.compare localeCompare x y) 0); [reflexivity |].
  rewrite IH. apply perm_swap.
Qed.

Lemma sort_Permutation l : Generator.sort localeCompare l ≡ₚ l.
Proof.
  induction l as [| x l IH]; simpl; [reflexivity |].
  now rewrite insert_Permutation, IH.
Qed.

Lemma ordered_Permutation shuffle_param random l :
  Generator.ordered localeCompare shuffle_param random l ≡ₚ l.
Proof.
  unfold Generator.ordered. destruct (bool_decide _).
  - apply fisher_yates_Permutation.
  - apply sort_Permutation.
Qed.

End SortFacts.

(** ** The distribution loop *)

Lemma advance_in_range n gi d :
  (0 <= gi < n)%Z -> d = 1%Z \/ d = (-1)%Z ->
  (0 <= (Generator.advance n gi d).1 < n)%Z
  /\ ((Generator.advance n gi d).2 = 1%Z
      \/ (Generator.advance n gi d).2 = (-1)%Z).
Proof.
  intros Hgi Hd. unfold Generator.advance. rewrite Z.geb_leb.
  destruct (Z.leb_spec n (gi + d)), (Z.ltb_spec (gi + d) 0); simpl; lia.
Qed.

(** At either end of the row the direction turns and the index stays: the
    boundary group is served twice in a row. *)
Lemma advance_turns n :
  (1 <= n)%Z ->
  Generator.advance n (n - 1) 1 = ((n - 1)%Z, (-1)%Z)
  /\ Generator.advance n 0 (-1) = (0%Z, 1%Z).
Proof.
  intros Hn. unfold Generator.advance. rewrite !Z.geb_leb.
  replace (Z.leb n (n - 1 + 1)) with true by (symmetry; apply Z.leb_le; lia).
  replace (Z.ltb (0 + -1) 0) with true by reflexivity.
  rewrite orb_true_r. simpl. split; f_equal; lia.
Qed.

Lemma player_copy (p : Player.t) :
  {| Player.id := Player.id p; Player.name := Player.name p;
     Player.skill := Player.skill p |} = p.
Proof. now destruct p. Qed.

Lemma assign_in_range groups gi p :
  (0 <= gi)%Z -> (Z.to_nat gi < length groups)%nat ->
  exists g,
    groups !! Z.to_nat gi = Some g
    /\ Generator.assign groups gi p
       = Some (<[Z.to_nat gi :=
                  {| Group.name := Group.name g;
                     Group.players := Group.players g ++ [p];
                     Group.totalSkill :=
                       (Group.totalSkill g + Player.skill p)%Z |}]> groups).
Proof.
  intros H0 Hlt. destruct (lookup_lt_is_Some_2 groups _ Hlt) as [g Hg].
  exists g. split; [exact Hg |]. unfold Generator.assign.
  replace (Z.ltb gi 0) with false by (symmetry; apply Z.ltb_ge; lia).
  now rewrite Hg, player_copy.
Qed.

Lemma players_after_insert (groups : list Group.t) i g g' p :
  groups !! i = Some g ->
  Group.players g' = Group.players g ++ [p] ->
  concat (map Group.players (<[i := g']> groups))
  ≡ₚ concat (map Group.players groups) ++ [p].
Proof.
  intros Hg Hp.
  rewrite insert_take_drop by (eapply lookup_lt_Some; eauto).
  rewrite <- (take_drop_middle groups i g Hg) at 3.
  rewrite !map_app, !concat_app. simpl. rewrite Hp.
  rewrite <- !app_assoc. apply Permutation_app_head.
  apply Permutation_app_head. apply Permutation_app_comm.
Qed.

Lemma names_after_insert (groups : list Group.t) i g g' :
  groups !! i = Some g ->
  Group.name g' = Group.name g ->
  map Group.name (<[i := g']> groups) = map Group.name groups.
Proof.
  intros Hg Hn. rewrite <- (list_insert_id groups i g Hg) at 2.
  change (map Group.name) with (fmap (M := list) Group.name).
  rewrite !list_fmap_insert. now rewrite Hn.
Qed.

(** With a group count of at least 1 the loop never leaves the array: it
    ends, keeps the groups and their names, and hands out every player. *)
Lemma distribute_spec n currentPlayers :
  forall groups gi d,
    (0 <= gi < n)%Z -> d = 1%Z \/ d = (-1)%Z ->
    length groups = Z.to_nat n ->
    exists groups',
      Generator.distribute n currentPlayers groups gi d = Some groups'
      /\ map Group.name groups' = map Group.name groups
      /\ concat (map Group.players groups')
         ≡ₚ concat (map Group.players groups) ++ currentPlayers.
Proof.
  induction currentPlayers as [| p rest IH]; intros groups gi d Hgi Hd Hlen.
  - exists groups. simpl. now rewrite app_nil_r.
  - destruct (assign_in_range groups gi p) as (g & Hg & Ha); [lia | lia |].
    simpl. rewrite Ha.
    destruct (advance_in_range n gi d Hgi Hd) as [Hgi' Hd'].
    destruct (Generator.advance n gi d) as [gi' d']. simpl in Hgi', Hd'.
    match goal with |- context [Generator.distribute _ _ ?gs _ _] =>
      destruct (IH gs gi' d' Hgi' Hd') as (groups' & Hrun & Hnames & Hperm)
    end.
    { rewrite length_insert. exact Hlen. }
    exists groups'. split; [exact Hrun | split].
    + rewrite Hnames. now apply (names_after_insert groups _ g).
    + rewrite Hperm. erewrite players_after_insert by (exact Hg || reflexivity).
      now rewrite <- app_assoc.
Qed.

Lemma assign_along_None targets :
  foldl (fun acc target =>
           match acc with
           | None => None
           | Some groups => Generator.assign groups target.1 target.2
           end)
        None targets = None.
Proof. induction targets as [| t targets IH]; simpl; auto. Qed.

(** The loop assigns the players along [index_path]. *)
Lemma distribute_follows_path n currentPlayers :
  forall groups gi d,
    Generator.distribute n currentPlayers groups gi d
    = Generator.assign_along
        (zip (Generator.index_path n (length currentPlayers) gi d)
             currentPlayers)
        groups.
Proof.
  unfold Generator.assign_along.
  induction currentPlayers as [| p rest IH]; intros groups gi d; simpl;
    [reflexivity |].
  destruct (Generator.advance n gi d) as [gi' d']. simpl.
  destruct (Generator.assign groups gi p) as [groups' |].
  - apply IH.
  - now rewrite assign_along_None.
Qed.

Lemma sum_skill_foldr players :
  Generator.sum_skill players = foldr Z.add 0%Z (map Player.skill players).
Proof.
  unfold Generator.sum_skill.
  assert (H : forall acc,
             foldl (fun sum p => (sum + Player.skill p)%Z) acc players
             = (acc + foldr Z.add 0 (map Player.skill players))%Z).
  { induction players as [| p players IH]; intros acc; simpl; [lia |].
    rewrite IH. lia. }
  now rewrite H.
Qed.

Lemma recompute_players groups :
  map Group.players (map Generator.recompute groups)
  = map Group.players groups.
Proof. rewrite map_map. now apply map_ext. Qed.

Lemma recompute_names groups :
  map Group.name (map Generator.recompute groups) = map Group.name groups.
Proof. rewrite map_map. now apply map_ext. Qed.

Lemma random_source_always_half :
  Generator.random_source Generator.always_half.
Proof.
  intros k. split; [| split; [unfold Qle | unfold Qlt]; simpl; lia].
  exists 1%Z, (-1)%Z. repeat split; lia || reflexivity.
Qed.

(** ** The generation endpoint *)

Section Generation.

Variable localeCompare : string -> string -> Z.

(** What the handler answers once the outing is found, has players and a
    group count from 1 to [2^32 - 1]: the groups, their number, their names
    and their members. *)
Lemma get_groups_success db heap outingId shuffle_param players random
    outing elements :
  outingId <> "" ->
  db !! outingId = Some outing ->
  heap !! players = Some elements ->
  elements <> [] ->
  (1 <= Outings.number_of_groups outing)%Z ->
  (Outings.number_of_groups outing <= Generator.max_array_length)%Z ->
  exists groups,
    (Generator.get_groups localeCompare db heap outingId shuffle_param
       players random).2
    = Json 200
        {| Generator.outingName := Outings.name outing;
           Generator.numberOfGroups := Some (Outings.number_of_groups outing);
           Generator.groups := map Generator.recompute groups;
           Generator.message := None |}
    /\ map Group.name groups
       = map Generator.group_name
           (seq 0 (Z.to_nat (Outings.number_of_groups outing)))
    /\ concat (map Group.players groups) ≡ₚ elements.
Proof.
  intros Hid Hdb Hheap Hne Hn Hmax.
  rewrite (get_groups_run localeCompare db heap outingId shuffle_param
             players random outing elements Hid Hdb Hheap Hne Hmax).
  destruct (distribute_spec (Outings.number_of_groups outing)
              (Generator.ordered localeCompare shuffle_param random elements)
              (Generator.new_groups (Outings.number_of_groups outing)) 0 1)
    as (groups & Hrun & Hnames & Hperm);
    [lia | now left | apply new_groups_length |].
  exists groups. simpl. rewrite Hrun. split; [reflexivity | split].
  - now rewrite Hnames, new_groups_names.
  - rewrite Hperm, ordered_Permutation.
    replace (concat (map Group.players (Generator.new_groups _))) with
      (@nil Player.t); [reflexivity |].
    unfold Generator.new_groups. rewrite map_map. simpl.
    induction (seq 0 _); simpl; auto.
Qed.

(** C2, as amended: for a group count from 1 to [2^32 - 1] and at least one
    player, in balanced and in randomized mode, the players of all groups of
    the answer, put together, are the input players, each exactly once. *)
Theorem every_player_in_exactly_one_group db heap outingId shuffle_param
    players random outing elements :
  outingId <> "" ->
  db !! outingId = Some outing ->
  heap !! players = Some elements ->
  elements <> [] ->
  (1 <= Outings.number_of_groups outing)%Z ->
  (Outings.number_of_groups outing <= Generator.max_array_length)%Z ->
  Generator.random_source random ->
  exists groups,
    (Generator.get_groups localeCompare db heap outingId shuffle_param
       players random).2
    = Json 200
        {| Generator.outingName := Outings.name outing;
           Generator.numberOfGroups := Some (Outings.number_of_groups outing);
           Generator.groups := groups;
           Generator.message := None |}
    /\ concat (map Group.players groups) ≡ₚ elements.
Proof.
  intros Hid Hdb Hheap Hne Hn Hmax _.
  destruct (get_groups_success db heap outingId shuffle_param players random
              outing elements Hid Hdb Hheap Hne Hn Hmax)
    as (groups & Hr & _ & Hperm).
  exists (map Generator.recompute groups). split; [exact Hr |].
  now rewrite recompute_players.
Qed.

(** C8, as amended: for a group count from 1 to [2^32 - 1] and at least one
    player, the answer holds exactly [numberOfGroups] groups, group [i] of
    the answer being the one created with index [i] (it bears the name of
    index [i]), and the [totalSkill] of each group is the sum of the skills
    of its members; groups without players are part of the answer. *)
Theorem every_group_present_with_its_total db heap outingId shuffle_param
    players random outing elements :
  outingId <> "" ->
  db !! outingId = Some outing ->
  heap !! players = Some elements ->
  elements <> [] ->
  (1 <= Outings.number_of_groups outing)%Z ->
  (Outings.number_of_groups outing <= Generator.max_array_length)%Z ->
  Generator.random_source random ->
  exists groups,
    (Generator.get_groups localeCompare db heap outingId shuffle_param
       players random).2
    = Json 200
        {| Generator.outingName := Outings.name outing;
           Generator.numberOfGroups := Some (Outings.number_of_groups outing);
           Generator.groups := groups;
           Generator.message := None |}
    /\ length groups = Z.to_nat (Outings.number_of_groups outing)
    /\ map Group.name groups
       = map Generator.group_name
           (seq 0 (Z.to_nat (Outings.number_of_groups outing)))
    /\ Forall (fun g =>
                 Group.totalSkill g
                 = foldr Z.add 0%Z (map Player.skill (Group.players g)))
              groups.
Proof.
  intros Hid Hdb Hheap Hne Hn Hmax _.
  destruct (get_groups_success db heap outingId shuffle_param players random
              outing elements Hid Hdb Hheap Hne Hn Hmax)
    as (groups & Hr & Hnames & _).
  exists (map Generator.recompute groups). split; [exact Hr |].
  assert (Hn' : map Group.name (map Generator.recompute groups)
                = map Generator.group_name
                    (seq 0 (Z.to_nat (Outings.number_of_groups outing))))
    by now rewrite recompute_names.
  split; [| split; [exact Hn' |]].
  - rewrite <- (length_map Group.name), Hn'.
    now rewrite length_map, length_seq.
  - apply Forall_forall. intros g Hg. apply list_elem_of_In, in_map_iff in Hg.
    destruct Hg as (g0 & <- & _). simpl. apply sum_skill_foldr.
Qed.

(** C5: when the outing exists and has no member, whatever its group count,
    the answer is the success [{ outingName, groups: [], message }]. *)
Theorem empty_outing_is_a_success db heap outingId shuffle_param players
    random outing :
  outingId <> "" ->
  db !! outingId = Some outing ->
  heap !! players = Some [] ->
  Generator.get_groups localeCompare db heap outingId shuffle_param players
    random
  = (heap,
     Json 200
       {| Generator.outingName := Outings.name outing;
          Generator.numberOfGroups := None;
          Generator.groups := [];
          Generator.message :=
            Some "No players in this outing to form groups." |}).
Proof.
  intros Hid Hdb Hheap. unfold Generator.get_groups.
  apply String.eqb_neq in Hid. now rewrite Hid, Hdb, Hheap.
Qed.

(** The heap the handler leaves behind differs from the one it found in one
    fresh cell at most. *)
Lemma get_groups_frame db heap outingId shuffle_param players random l :
  is_Some (heap !! l) ->
  (Generator.get_groups localeCompare db heap outingId shuffle_param players
     random).1 !! l = heap !! l.
Proof.
  intros Hl. unfold Generator.get_groups.
  destruct (String.eqb outingId ""); [reflexivity |].
  destruct (db !! outingId) as [outing |]; [| reflexivity].
  destruct (heap !! players) as [[| p ps] |]; try reflexivity.
  assert (Hfresh : fresh (dom heap) <> l).
  { intros <-. apply elem_of_dom in Hl. exact (is_fresh (dom heap) Hl). }
  match goal with |- context [mbind ?f ?m] => destruct (mbind f m) end;
    simpl; destruct (bool_decide (shuffle_param = Some "true"));
    now rewrite lookup_alter_ne, lookup_insert_ne.
Qed.

(** C9: whatever the mode, the array of players the handler was given holds
    the same sequence after the call as before; sort and shuffle work on the
    copy held in a fresh cell. *)
Theorem input_sequence_not_mutated db heap outingId shuffle_param players
    random :
  (Generator.get_groups localeCompare db heap outingId shuffle_param players
     random).1 !! players = heap !! players.
Proof.
  destruct (heap !! players) as [elements |] eqn:Hp.
  - rewrite get_groups_frame; [exact Hp | now rewrite Hp].
  - unfold Generator.get_groups.
    destruct (String.eqb outingId ""); [exact Hp |].
    destruct (db !! outingId); [| exact Hp]. now rewrite Hp.
Qed.

End Generation.

Lemma every_player_in_exactly_one_group_witness :
  exists groups,
    (Generator.get_groups Generator.code_unit_compare
       Generator.example_outings Generator.example_heap "o1" (Some "true")
       0%nat Generator.always_half).2
    = Json 200
        {| Generator.outingName := "Open";
           Generator.numberOfGroups := Some 3%Z;
           Generator.groups := groups;
           Generator.message := None |}
    /\ concat (map Group.players groups) ≡ₚ Generator.example_players.
Proof.
  apply (every_player_in_exactly_one_group Generator.code_unit_compare
           Generator.example_outings Generator.example_heap "o1"
           (Some "true") 0%nat Generator.always_half
           {| Outings.name := "Open"; Outings.number_of_groups := 3 |}
           Generator.example_players).
  - discriminate.
  - reflexivity.
  - reflexivity.
  - discriminate.
  - simpl. lia.
  - discriminate.
  - exact random_source_always_half.
Defined.

Lemma every_group_present_with_its_total_witness :
  exists groups,
    (Generator.get_groups Generator.code_unit_compare
       Generator.example_outings Generator.example_heap "o1" None
       0%nat Generator.always_half).2
    = Json 200
        {| Generator.outingName := "Open";
           Generator.numberOfGroups := Some 3%Z;
           Generator.groups := groups;
           Generator.message := None |}
    /\ length groups = 3%nat
    /\ map Group.name groups = map Generator.group_name (seq 0 3)
    /\ Forall (fun g =>
                 Group.totalSkill g
                 = foldr Z.add 0%Z (map Player.skill (Group.players g)))
              groups.
Proof.
  apply (every_group_present_with_its_total Generator.code_unit_compare
           Generator.example_outings Generator.example_heap "o1"
           None 0%nat Generator.always_half
           {| Outings.name := "Open"; Outings.number_of_groups := 3 |}
           Generator.example_players).
  - discriminate.
  - reflexivity.
  - reflexivity.
  - discriminate.
  - simpl. lia.
  - discriminate.
  - exact random_source_always_half.
Defined.

Lemma empty_outing_is_a_success_witness :
  Generator.get_groups Generator.code_unit_compare Generator.example_outings
    {[ 0%nat := [] ]} "o1" None 0%nat Generator.always_half
  = ({[ 0%nat := [] ]},
     Json 200
       {| Generator.outingName := "Open";
          Generator.numberOfGroups := None;
          Generator.groups := [];
          Generator.message :=
            Some "No players in this outing to form groups." |}).
Proof.
  apply (empty_outing_is_a_success Generator.code_unit_compare
           Generator.example_outings {[ 0%nat := [] ]} "o1" None 0%nat
           Generator.always_half
           {| Outings.name := "Open"; Outings.number_of_groups := 3 |}).
  - discriminate.
  - reflexivity.
  - reflexivity.
Defined.

(** With [2^32] groups, a count that POST /api/outings accepts and stores,
    no player is in any group: [Array.from] throws and the handler answers
    500.  In balanced mode: *)
Lemma no_player_in_a_group_with_4294967296_groups :
  let db :=
    Outings.run
      [Outings.POST "o1" (Js.String "Open")
         (Js.Number (Js.Finite (inject_Z 4294967296)))] in
  db !! "o1"
  = Some {| Outings.name := "Open";
            Outings.number_of_groups := 4294967296 |}
  /\ (1 <= 4294967296)%Z
  /\ Generator.example_players <> []
  /\ (Generator.get_groups Generator.code_unit_compare db
        Generator.example_heap "o1" None 0%nat Generator.always_half).2
     = Error 500 "Failed to generate groups".
Proof.
  intros db.
  assert (Hdb : db !! "o1"
                = Some {| Outings.name := "Open";
                          Outings.number_of_groups := 4294967296 |})
    by (vm_compute; reflexivity).
  split; [exact Hdb | split; [lia | split; [discriminate |]]].
  rewrite (get_groups_range_error Generator.code_unit_compare db
             Generator.example_heap "o1" None 0%nat Generator.always_half
             {| Outings.name := "Open";
                Outings.number_of_groups := 4294967296 |}
             Generator.example_players);
    [reflexivity | discriminate | exact Hdb | reflexivity | discriminate
     | reflexivity].
Qed.

(** In randomized mode, likewise, the answer holds no group at all. *)
Lemma no_group_in_the_answer_with_4294967296_groups :
  let db :=
    Outings.run
      [Outings.POST "o1" (Js.String "Open")
         (Js.Number (Js.Finite (inject_Z 4294967296)))] in
  db !! "o1"
  = Some {| Outings.name := "Open";
            Outings.number_of_groups := 4294967296 |}
  /\ (1 <= 4294967296)%Z
  /\ Generator.example_players <> []
  /\ Generator.random_source Generator.always_half
  /\ (Generator.get_groups Generator.code_unit_compare db
        Generator.example_heap "o1" (Some "true") 0%nat
        Generator.always_half).2
     = Error 500 "Failed to generate groups".
Proof.
  intros db.
  assert (Hdb : db !! "o1"
                = Some {| Outings.name := "Open";
                          Outings.number_of_groups := 4294967296 |})
    by (vm_compute; reflexivity).
  split; [exact Hdb | split; [lia | split; [discriminate |]]].
  split; [exact random_source_always_half |].
  rewrite (get_groups_range_error Generator.code_unit_compare db
             Generator.example_heap "o1" (Some "true") 0%nat
             Generator.always_half
             {| Outings.name := "Open";
                Outings.number_of_groups := 4294967296 |}
             Generator.example_players);
    [reflexivity | discriminate | exact Hdb | reflexivity | discriminate
     | reflexivity].
Qed.

(** C1: in balanced mode, ten players of skills 10, 9, ..., 1 in that order
    and three groups.  The loop visits the group indices 0, 1, 2, 2, 1, 0, 0,
    1, 2, 2 (see [distribute_follows_path]); group 0 gets the players of
    skills 10, 5, 4, group 1 those of skills 9, 6, 3, group 2 those of skills
    8, 7, 2, 1; the totals are 19, 18, 18; at each end of the row the index
    stays for one more player while the direction turns. *)
Theorem snake_draft_of_ten_players_in_three_groups
    (localeCompare : string -> string -> Z) db heap outingId shuffle_param
    players random outing (id name : nat -> string) :
  let P k s :=
    {| Player.id := id k; Player.name := name k; Player.skill := s |} in
  outingId <> "" ->
  db !! outingId = Some outing ->
  Outings.number_of_groups outing = 3%Z ->
  shuffle_param <> Some "true" ->
  heap !! players
  = Some [P 0 10%Z; P 1 9%Z; P 2 8%Z; P 3 7%Z; P 4 6%Z; P 5 5%Z; P 6 4%Z;
          P 7 3%Z; P 8 2%Z; P 9 1%Z] ->
  (Generator.get_groups localeCompare db heap outingId shuffle_param players
     random).2
  = Json 200
      {| Generator.outingName := Outings.name outing;
         Generator.numberOfGroups := Some 3%Z;
         Generator.groups :=
           [ {| Group.name := "The Fairway Fanatics";
                Group.players := [P 0 10%Z; P 5 5%Z; P 6 4%Z];
                Group.totalSkill := 19 |};
             {| Group.name := "The Driving Divas/Dudes";
                Group.players := [P 1 9%Z; P 4 6%Z; P 7 3%Z];
                Group.totalSkill := 18 |};
             {| Group.name := "The Bogey Brigade";
                Group.players := [P 2 8%Z; P 3 7%Z; P 8 2%Z; P 9 1%Z];
                Group.totalSkill := 18 |} ];
         Generator.message := None |}
  /\ Generator.index_path 3 10 0 1 = [0; 1; 2; 2; 1; 0; 0; 1; 2; 2]%Z
  /\ Generator.advance 3 2 1 = (2%Z, (-1)%Z)
  /\ Generator.advance 3 0 (-1) = (0%Z, 1%Z).
Proof.
  intros P Hid Hdb Hn Hmode Hheap.
  split; [| split; [reflexivity | exact (advance_turns 3 ltac:(lia))]].
  erewrite get_groups_run
    by (eassumption || discriminate || (rewrite Hn; discriminate)).
  unfold Generator.ordered. rewrite (bool_decide_eq_false_2 _ Hmode), Hn.
  reflexivity.
Qed.

Lemma snake_draft_of_ten_players_in_three_groups_witness :
  let P k s :=
    {| Player.id := "p"; Player.name := Generator.decimal k;
       Player.skill := s |} in
  (Generator.get_groups Generator.code_unit_compare Generator.example_outings
     {[ 7%nat := [P 0 10%Z; P 1 9%Z; P 2 8%Z; P 3 7%Z; P 4 6%Z; P 5 5%Z;
                  P 6 4%Z; P 7 3%Z; P 8 2%Z; P 9 1%Z] ]}
     "o1" None 7%nat Generator.always_half).2
  = Json 200
      {| Generator.outingName := "Open";
         Generator.numberOfGroups := Some 3%Z;
         Generator.groups :=
           [ {| Group.name := "The Fairway Fanatics";
                Group.players := [P 0 10%Z; P 5 5%Z; P 6 4%Z];
                Group.totalSkill := 19 |};
             {| Group.name := "The Driving Divas/Dudes";
                Group.players := [P 1 9%Z; P 4 6%Z; P 7 3%Z];
                Group.totalSkill := 18 |};
             {| Group.name := "The Bogey Brigade";
                Group.players := [P 2 8%Z; P 3 7%Z; P 8 2%Z; P 9 1%Z];
                Group.totalSkill := 18 |} ];
         Generator.message := None |}.
Proof.
  intros P.
  refine (proj1 (snake_draft_of_ten_players_in_three_groups
                   Generator.code_unit_compare Generator.example_outings
                   _ "o1" None 7%nat Generator.always_half
                   {| Outings.name := "Open"; Outings.number_of_groups := 3 |}
                   (fun _ => "p") Generator.decimal _ _ _ _ _)).
  - discriminate.
  - reflexivity.
  - reflexivity.
  - discriminate.
  - reflexivity.
Defined.

(** ** The Fisher-Yates loop reaches every ordering, each from one sequence
       of positions *)

Lemma swap_length {A : Type} (a : list A) i j :
  length (Generator.swap a i j) = length a.
Proof. apply Permutation_length, swap_Permutation. Qed.



Lemma swaps_length {A : Type} i :
  forall js (a : list A), length (Generator.swaps js i a) = length a.
Proof.
  induction i as [| i IH]; intros [| j js] a; simpl; try reflexivity.
  now rewrite IH, swap_length.
Qed.




(** ** The product of a draw and a length, rounded to a double *)

Section Rounding.

Local Open Scope Q_scope.

Lemma pow2_pos e : 0 < 2 ^ e.
Proof. apply Qpower_0_lt. reflexivity. Qed.

Lemma pow2_plus a b : 2 ^ (a + b) == 2 ^ a * 2 ^ b.
Proof. apply Qpower_plus. discriminate. Qed.


Lemma pow2_inject e : (0 <= e)%Z -> 2 ^ e == inject_Z (2 ^ e).
Proof. intros H. now rewrite (Zpower_Qpower 2 e H). Qed.


Lemma log2_bounds p :
  (0 < p)%Z ->
  inject_Z p < 2 ^ (Z.log2 p + 1) /\ 2 ^ Z.log2 p <= inject_Z p.
Proof.
  intros Hp. pose proof (Z.log2_spec p Hp) as [H1 H2].
  pose proof (Z.log2_nonneg p).
  rewrite !pow2_inject by lia. rewrite <- Zlt_Qlt, <- Zle_Qle.
  replace (Z.log2 p + 1)%Z with (Z.succ (Z.log2 p)) by lia.
  split; assumption.
Qed.


Lemma binade_lt x : 0 < x -> x < 2 ^ (Js.binade x + 1).
Proof.
  intros Hx. unfold Js.binade.
  destruct (Qle_bool _ x) eqn:E.
  - destruct x as [p q]. cbn [Qnum Qden] in *.
    assert (Hp : (0 < p)%Z) by (unfold Qlt in Hx; simpl in Hx; lia).
    destruct (log2_bounds p Hp) as [Hhi _].
    destruct (log2_bounds (Zpos q) eq_refl) as [_ Hlo].
    replace (Z.log2 p - Z.log2 (Z.pos q) + 1)%Z
      with ((Z.log2 p + 1) + - Z.log2 (Z.pos q))%Z by lia.
    rewrite pow2_plus, Qpower_opp.
    pose proof (pow2_pos (Z.log2 (Z.pos q))) as Hpos.
    assert (Hq : 0 < inject_Z (Z.pos q)) by reflexivity.
    rewrite (Qmake_Qdiv p q). unfold Qdiv.
    apply Qlt_le_trans with (2 ^ (Z.log2 p + 1) * / inject_Z (Z.pos q)).
    + apply Qmult_lt_compat_r; [now apply Qinv_lt_0_compat | exact Hhi].
    + apply Qmult_le_l; [apply pow2_pos |].
      apply Qle_shift_inv_l; [exact Hpos |].
      rewrite Qmult_comm. apply (Qle_shift_div_r _ _ 1 Hq).
      now rewrite Qmult_1_l.
  - replace (Z.log2 (Qnum x) - Z.log2 (Z.pos (Qden x)) - 1 + 1)%Z
      with (Z.log2 (Qnum x) - Z.log2 (Z.pos (Qden x)))%Z by lia.
    apply Qnot_le_lt. intros H. apply Qle_bool_iff in H. congruence.
Qed.













Section Product.

Variable r : Q.
Variable n : Z.
Hypothesis draw_nonneg : 0 <= r.
Hypothesis draw_below_1 : r < 1.
Hypothesis length_pos : (1 <= n)%Z.
Hypothesis length_exact : (n <= 2 ^ 53)%Z.









End Product.

End Rounding.

(** ** The position that a draw picks *)

Lemma Zpos_of_nat_S n : Zpos (Pos.of_nat (S n)) = Z.of_nat (S n).
Proof. lia. Qed.






(** ** The loop and the positions it picks *)






Lemma picks_ext random1 random2 i :
  forall k1 k2,
    (forall m, random1 (k1 + m)%nat = random2 (k2 + m)%nat) ->
    Generator.picks random1 k1 i = Generator.picks random2 k2 i.
Proof.
  induction i as [| i IH]; intros k1 k2 H; simpl; [reflexivity |].
  f_equal.
  - specialize (H 0%nat). rewrite !Nat.add_0_r in H. now rewrite H.
  - apply IH. intros m. specialize (H (S m)).
    now rewrite !Nat.add_succ_r in H.
Qed.







(** ** Balanced mode does not depend on the order of the member query *)

Section InputOrder.

Variable localeCompare : string -> string -> Z.
Hypothesis collation : Generator.collation_orders localeCompare.

Lemma not_after_cases a b :
  Generator.not_after localeCompare a b
  <-> (Player.skill b < Player.skill a)%Z
      \/ (Player.skill b = Player.skill a
          /\ (localeCompare (Player.name a) (Player.name b) <= 0)%Z).
Proof.
  unfold Generator.not_after, Generator.compare.
  destruct (Z.eqb_spec (Player.skill b) (Player.skill a)); simpl; lia.
Qed.

Lemma not_after_total a b :
  Generator.not_after localeCompare a b
  \/ Generator.not_after localeCompare b a.
Proof.
  rewrite !not_after_cases.
  destruct (Z.lt_trichotomy (Player.skill a) (Player.skill b))
    as [H | [H | H]]; [right; left; exact H | | left; left; exact H].
  destruct (proj1 collation (Player.name a) (Player.name b)); [left | right];
    right; now split.
Qed.


Lemma insert_Sorted x l :
  Sorted (Generator.not_after localeCompare) l ->
  Sorted (Generator.not_after localeCompare)
         (Generator.insert localeCompare x l).
Proof.
  induction 1 as [| y l Hl IH Hhd]; simpl; [repeat constructor |].
  destruct (Z.leb_spec (Generator.compare localeCompare x y) 0) as [H | H].
  - repeat constructor; assumption.
  - constructor; [exact IH |].
    assert (Hyx : Generator.not_after localeCompare y x).
    { destruct (not_after_total x y) as [H' | H']; [| exact H'].
      unfold Generator.not_after in H'. lia. }
    destruct Hhd as [| z l Hz]; simpl; [now constructor |].
    destruct (Z.leb (Generator.compare localeCompare x z) 0);
      now constructor.
Qed.

Lemma sort_Sorted l :
  Sorted (Generator.not_after localeCompare) (Generator.sort localeCompare l).
Proof.
  induction l as [| x l IH]; simpl; [constructor | now apply insert_Sorted].
Qed.



End InputOrder.

(** Comparison of the bytes is such a collation, and for it two players
    tie only when they have the same skill and the same name. *)
Lemma code_unit_compare_le s t :
  (Generator.code_unit_compare s t <= 0)%Z
  <-> s = t \/ String_as_OT.lt s t.
Proof.
  unfold Generator.code_unit_compare. rewrite <- String_as_OT.cmp_lt.
  change (String_as_OT.cmp s t) with (String.compare s t).
  destruct (String.compare s t) eqn:E.
  - apply String.compare_eq_iff in E. split; [now left | lia].
  - split; [now right | lia].
  - split; [lia |]. intros [-> | H]; [| discriminate].
    rewrite String.compare_antisym in E.
    destruct (String.compare t t) eqn:E'; try discriminate.
    apply String_as_OT.cmp_lt in E'. exfalso.
    exact (String_as_OT.lt_not_eq _ _ E' eq_refl).
Qed.






(** ** The slices of one step have the same width, the boxes of a whole run
       the same volume *)

Lemma slice_interval r j m :
  (0 < m)%nat ->
  Generator.slice r j m
  <-> (Z.of_nat j # Pos.of_nat m <= r)%Q
      /\ (r < (Z.of_nat j # Pos.of_nat m) + Generator.slice_width m)%Q.
Proof.
  intros Hm. destruct m as [| m]; [lia |]. destruct r as [a b].
  unfold Generator.slice, Generator.slice_width, Qle, Qlt, Qplus, Qmult,
    inject_Z.
  cbn [Qnum Qden]. rewrite !Pos2Z.inj_mul, !Zpos_of_nat_S.
  pose proof (Pos2Z.is_pos b). nia.
Qed.

(** The inner slice goes from [j / m] to [(j + 1) / m - 2^-53], the outer
    slice from [j / m - 2^-53] to [(j + 1) / m]. *)
Lemma inner_outer_slice_interval r j m :
  (0 < m)%nat ->
  (Generator.inner_slice r j m
   <-> ((Z.of_nat j # Pos.of_nat m) <= r)%Q
       /\ (r <= ((Z.of_nat j + 1) # Pos.of_nat m) - 2 ^ (-53))%Q)
  /\ (Generator.outer_slice r j m
      <-> ((Z.of_nat j # Pos.of_nat m) - 2 ^ (-53) < r)%Q
          /\ (r < ((Z.of_nat j + 1) # Pos.of_nat m))%Q).
Proof.
  intros Hm. destruct m as [| m]; [lia |]. destruct r as [a b].
  unfold Generator.inner_slice, Generator.outer_slice.
  change (2 ^ (-53))%Q with (1 # 9007199254740992)%Q.
  cbv [Qle Qlt Qplus Qminus Qopp Qmult inject_Z Qnum Qden].
  rewrite !Pos2Z.inj_mul, !Zpos_of_nat_S.
  pose proof (Pos2Z.is_pos b). split; split; intros [H1 H2]; split; nia.
Qed.

Lemma box_volume_step n :
  (Generator.box_volume (S (S n))
   == Generator.slice_width (S (S n)) * Generator.box_volume (S n))%Q.
Proof.
  unfold Generator.box_volume.
  replace (S (S n) - 1)%nat with (S n) by lia.
  replace (S n - 1)%nat with n by lia.
  cbn [seq map foldr]. rewrite <- seq_shift, map_map. reflexivity.
Qed.

(** The box of every ordering of [n] elements has volume [1 / n!]. *)
Lemma box_volume_fact n :
  (Generator.box_volume n == 1 # Pos.of_nat (fact n))%Q.
Proof.
  destruct n as [| n]; [reflexivity |].
  induction n as [| n IH]; [reflexivity |].
  rewrite box_volume_step, IH. unfold Generator.slice_width, Qeq, Qmult.
  cbn [Qnum Qden].
  change (fact (S (S n))) with (S (S n) * fact (S n))%nat.
  rewrite Nat2Pos.inj_mul; [reflexivity | lia |].
  pose proof (lt_O_fact (S n)). lia.
Qed.

(** ** Why the group count must be at least 1 *)

Section Precondition.

Variable localeCompare : string -> string -> Z.

(** X9: with a group count below 1 and at least one player the first
    [groups[groupIndex]] is [undefined] and the handler answers 500. *)
Lemma generation_needs_a_group db heap outingId shuffle_param players random
    outing elements :
  outingId <> "" ->
  db !! outingId = Some outing ->
  heap !! players = Some elements ->
  elements <> [] ->
  (Outings.number_of_groups outing <= 0)%Z ->
  (Generator.get_groups localeCompare db heap outingId shuffle_param players
     random).2
  = Error 500 "Failed to generate groups".
Proof.
  intros Hid Hdb Hheap Hne Hn.
  erewrite get_groups_run
    by (eassumption || (unfold Generator.max_array_length; lia)).
  simpl.
  pose proof (ordered_Permutation localeCompare shuffle_param random elements)
    as Hperm.
  destruct (Generator.ordered localeCompare shuffle_param random elements)
    as [| p rest].
  { apply Permutation_nil_l in Hperm. congruence. }
  unfold Generator.new_groups.
  replace (Z.to_nat (Outings.number_of_groups outing)) with 0%nat by lia.
  reflexivity.
Qed.

(** X10: the handlers that write the outings accept every positive integer
    as a group count, and the generation handler copes with the counts up to
    [2^32 - 1] only.  For an outing of a table the worker can reach, with at
    least one player: up to that count the answer is 200 with the groups;
    above it [Array.from] throws and the answer is 500. *)
Lemma stored_outings_generate_up_to_the_array_limit db heap outingId
    shuffle_param players random outing elements :
  Outings.reachable db ->
  outingId <> "" ->
  db !! outingId = Some outing ->
  heap !! players = Some elements ->
  elements <> [] ->
  ((Outings.number_of_groups outing <= Generator.max_array_length)%Z ->
   exists groups,
     (Generator.get_groups localeCompare db heap outingId shuffle_param
        players random).2
     = Json 200
         {| Generator.outingName := Outings.name outing;
            Generator.numberOfGroups :=
              Some (Outings.number_of_groups outing);
            Generator.groups := groups;
            Generator.message := None |})
  /\ ((Generator.max_array_length < Outings.number_of_groups outing)%Z ->
      (Generator.get_groups localeCompare db heap outingId shuffle_param
         players random).2
      = Error 500 "Failed to generate groups").
Proof.
  intros Hreach Hid Hdb Hheap Hne. split; intros Hmax.
  - destruct (get_groups_success localeCompare db heap outingId
                shuffle_param players random outing elements Hid Hdb Hheap
                Hne)
      as (groups & Hr & _); [| exact Hmax | eauto].
    exact (reachable_positive db Hreach outingId outing Hdb).
  - now erewrite get_groups_range_error by eassumption.
Qed.

End Precondition.

(** * Further properties of the generator *)

(** ** The sizes of the groups *)

Lemma served_at_index gi d :
  (0 <= gi)%Z -> Generator.served gi d (Z.to_nat gi) = false.
Proof.
  intros H. unfold Generator.served.
  destruct (Z.eqb d 1); apply Z.ltb_ge; lia.
Qed.

(** One step of the loop keeps the sizes within one of each other: when every
    group holds [q] players, or [q + 1] if it has been served in the current
    row, the same is true after the step, for [q] or for [q + 1]. *)
Lemma sizes_after_step n (groups : list Group.t) gi d p g q :
  (0 <= gi < n)%Z -> d = 1%Z \/ d = (-1)%Z ->
  length groups = Z.to_nat n ->
  groups !! Z.to_nat gi = Some g ->
  (forall i h, groups !! i = Some h ->
     length (Group.players h)
     = (q + if Generator.served gi d i then 1 else 0)%nat) ->
  exists q',
    forall i h,
      <[Z.to_nat gi :=
         {| Group.name := Group.name g;
            Group.players := Group.players g ++ [p];
            Group.totalSkill := (Group.totalSkill g + Player.skill p)%Z |}]>
        groups !! i = Some h ->
      length (Group.players h)
      = (q' + if Generator.served (Generator.advance n gi d).1
                                  (Generator.advance n gi d).2 i
              then 1 else 0)%nat.
Proof.
  intros Hgi Hd Hlen Hg Hsizes.
  assert (Hnew : forall i h,
            <[Z.to_nat gi :=
               {| Group.name := Group.name g;
                  Group.players := Group.players g ++ [p];
                  Group.totalSkill :=
                    (Group.totalSkill g + Player.skill p)%Z |}]>
              groups !! i = Some h ->
            (i < Z.to_nat n)%nat
            /\ length (Group.players h)
               = (q + if Generator.served gi d i then 1
                      else if decide (i = Z.to_nat gi) then 1 else 0)%nat).
  { intros i h Hi. split.
    { apply lookup_lt_Some in Hi. now rewrite length_insert, Hlen in Hi. }
    destruct (decide (i = Z.to_nat gi)) as [-> | Hne].
    - rewrite list_lookup_insert_eq in Hi
        by (eapply lookup_lt_Some; eauto).
      injection Hi as <-. simpl. rewrite length_app. simpl.
      rewrite (Hsizes _ _ Hg), served_at_index by lia. lia.
    - rewrite list_lookup_insert_ne in Hi by congruence.
      rewrite (Hsizes _ _ Hi). now destruct (Generator.served gi d i). }
  unfold Generator.advance. rewrite Z.geb_leb.
  destruct (Z.leb_spec n (gi + d)) as [Hup | Hup];
    [| destruct (Z.ltb_spec (gi + d) 0) as [Hdown | Hdown]]; simpl.
  - (* the upper end: every group has been served *)
    exists (S q). intros i h Hi. destruct (Hnew i h Hi) as [Hlt ->].
    unfold Generator.served.
    replace (Z.eqb d 1) with true by (symmetry; apply Z.eqb_eq; lia).
    replace (Z.eqb (d * -1) 1) with false by (symmetry; apply Z.eqb_neq; lia).
    destruct (Z.ltb_spec (Z.of_nat i) gi), (decide (i = Z.to_nat gi)),
      (Z.ltb_spec (gi + d + d * -1) (Z.of_nat i)); lia.
  - (* the lower end *)
    exists (S q). intros i h Hi. destruct (Hnew i h Hi) as [Hlt ->].
    unfold Generator.served.
    replace (Z.eqb d 1) with false by (symmetry; apply Z.eqb_neq; lia).
    replace (Z.eqb (d * -1) 1) with true by (symmetry; apply Z.eqb_eq; lia).
    destruct (Z.ltb_spec gi (Z.of_nat i)), (decide (i = Z.to_nat gi)),
      (Z.ltb_spec (Z.of_nat i) (gi + d + d * -1)); lia.
  - (* inside the row *)
    exists q. intros i h Hi. destruct (Hnew i h Hi) as [Hlt ->].
    unfold Generator.served.
    destruct Hd as [-> | ->]; simpl;
      destruct (Z.ltb_spec (Z.of_nat i) gi), (Z.ltb_spec gi (Z.of_nat i)),
        (decide (i = Z.to_nat gi)); simpl;
      try destruct (Z.ltb_spec (Z.of_nat i) (gi + 1));
      try destruct (Z.ltb_spec (gi + -1) (Z.of_nat i)); lia.
Qed.

Lemma distribute_sizes n currentPlayers :
  forall groups gi d q,
    (0 <= gi < n)%Z -> d = 1%Z \/ d = (-1)%Z ->
    length groups = Z.to_nat n ->
    (forall i h, groups !! i = Some h ->
       length (Group.players h)
       = (q + if Generator.served gi d i then 1 else 0)%nat) ->
    forall groups',
      Generator.distribute n currentPlayers groups gi d = Some groups' ->
      exists q',
        forall h, h ∈ groups' ->
          (q' <= length (Group.players h) <= q' + 1)%nat.
Proof.
  induction currentPlayers as [| p rest IH];
    intros groups gi d q Hgi Hd Hlen Hsizes groups' Hrun.
  - injection Hrun as <-. exists q. intros h Hh.
    apply list_elem_of_lookup in Hh. destruct Hh as [i Hi].
    rewrite (Hsizes _ _ Hi). destruct (Generator.served gi d i); lia.
  - destruct (assign_in_range groups gi p) as (g & Hg & Ha); [lia | lia |].
    simpl in Hrun. rewrite Ha in Hrun.
    destruct (sizes_after_step n groups gi d p g q Hgi Hd Hlen Hg Hsizes)
      as [q' Hq'].
    destruct (advance_in_range n gi d Hgi Hd) as [Hgi' Hd'].
    destruct (Generator.advance n gi d) as [gi' d']. simpl in *.
    eapply (IH _ gi' d' q' Hgi' Hd'); [| exact Hq' | exact Hrun].
    now rewrite length_insert.
Qed.

Section Sizes.

Variable localeCompare : string -> string -> Z.

(** X1: for a group count from 1 to [2^32 - 1] and at least one player, in
    either mode, the numbers of players of any two groups of the answer
    differ by at most one. *)
Theorem group_sizes_differ_by_at_most_one db heap outingId shuffle_param
    players random outing elements :
  outingId <> "" ->
  db !! outingId = Some outing ->
  heap !! players = Some elements ->
  elements <> [] ->
  (1 <= Outings.number_of_groups outing)%Z ->
  (Outings.number_of_groups outing <= Generator.max_array_length)%Z ->
  exists groups,
    (Generator.get_groups localeCompare db heap outingId shuffle_param
       players random).2
    = Json 200
        {| Generator.outingName := Outings.name outing;
           Generator.numberOfGroups := Some (Outings.number_of_groups outing);
           Generator.groups := groups;
           Generator.message := None |}
    /\ forall g h, g ∈ groups -> h ∈ groups ->
         (length (Group.players g) <= length (Group.players h) + 1)%nat.
Proof.
  intros Hid Hdb Hheap Hne Hn Hmax.
  erewrite get_groups_run by eassumption. cbn [snd].
  set (n := Outings.number_of_groups outing) in *.
  set (ps := Generator.ordered localeCompare shuffle_param random elements).
  destruct (distribute_spec n ps (Generator.new_groups n) 0 1)
    as (groups & Hrun & _); [lia | now left | apply new_groups_length |].
  rewrite Hrun. exists (map Generator.recompute groups).
  split; [reflexivity |].
  destruct (distribute_sizes n ps (Generator.new_groups n) 0 1 0) with
    (groups' := groups) as [q Hq];
    [lia | now left | apply new_groups_length | | exact Hrun |].
  { intros i h Hi. unfold Generator.new_groups in Hi.
    apply list_elem_of_lookup_2, list_elem_of_In, in_map_iff in Hi.
    destruct Hi as (j & <- & _). simpl.
    unfold Generator.served. simpl.
    now replace (Z.ltb (Z.of_nat i) 0) with false
      by (symmetry; apply Z.ltb_ge; lia). }
  intros g h Hg Hh.
  apply list_elem_of_In, in_map_iff in Hg, Hh.
  destruct Hg as (g0 & <- & Hg), Hh as (h0 & <- & Hh). simpl.
  apply list_elem_of_In in Hg, Hh.
  pose proof (Hq g0 Hg). pose proof (Hq h0 Hh). lia.
Qed.

End Sizes.

Lemma group_sizes_differ_by_at_most_one_witness :
  exists groups,
    (Generator.get_groups Generator.code_unit_compare
       Generator.example_outings Generator.example_heap "o1" (Some "true")
       0%nat Generator.always_half).2
    = Json 200
        {| Generator.outingName := "Open";
           Generator.numberOfGroups := Some 3%Z;
           Generator.groups := groups;
           Generator.message := None |}
    /\ forall g h, g ∈ groups -> h ∈ groups ->
         (length (Group.players g) <= length (Group.players h) + 1)%nat.
Proof.
  apply (group_sizes_differ_by_at_most_one Generator.code_unit_compare
           Generator.example_outings Generator.example_heap "o1"
           (Some "true") 0%nat Generator.always_half
           {| Outings.name := "Open"; Outings.number_of_groups := 3 |}
           Generator.example_players).
  - discriminate.
  - reflexivity.
  - reflexivity.
  - discriminate.
  - simpl. lia.
  - discriminate.
Defined.

(** ** The snake in closed form *)

Lemma div_mod_succ n k :
  (0 < n)%nat ->
  ((k mod n + 1 < n)%nat
   /\ (S k / n = k / n)%nat /\ (S k mod n = k mod n + 1)%nat)
  \/ ((k mod n + 1 = n)%nat
      /\ (S k / n = S (k / n))%nat /\ (S k mod n = 0)%nat).
Proof.
  intros Hn.
  pose proof (Nat.div_mod_eq k n) as Hk.
  pose proof (Nat.mod_upper_bound k n ltac:(lia)) as Hr.
  destruct (decide (k mod n + 1 < n)%nat) as [Hlt | Hge].
  - left. split; [exact Hlt |].
    assert (Hq : (k / n = S k / n)%nat).
    { apply (Nat.div_unique (S k) n (k / n) (k mod n + 1)); lia. }
    split; [now rewrite Hq |].
    symmetry. apply (Nat.mod_unique (S k) n (k / n) (k mod n + 1)); lia.
  - right. split; [lia |].
    assert (Hq : (S (k / n) = S k / n)%nat).
    { apply (Nat.div_unique (S k) n (S (k / n)) 0); lia. }
    split; [now rewrite Hq |].
    symmetry. apply (Nat.mod_unique (S k) n (S (k / n)) 0); lia.
Qed.

Lemma advance_snake_state n k :
  (0 < n)%nat ->
  Generator.advance (Z.of_nat n) (Generator.snake_state n k).1
    (Generator.snake_state n k).2
  = Generator.snake_state n (S k).
Proof.
  intros Hn. unfold Generator.snake_state, Generator.advance.
  pose proof (Nat.mod_upper_bound k n ltac:(lia)) as Hr.
  rewrite Z.geb_leb.
  destruct (div_mod_succ n k Hn) as [(Hlt & -> & ->) | (Heq & -> & ->)].
  - destruct (Nat.even (k / n)); cbn [fst snd].
    + replace (Z.leb (Z.of_nat n) (Z.of_nat (k mod n) + 1)) with false
        by (symmetry; apply Z.leb_gt; lia).
      replace (Z.ltb (Z.of_nat (k mod n) + 1) 0) with false
        by (symmetry; apply Z.ltb_ge; lia).
      simpl. f_equal. lia.
    + replace (Z.leb (Z.of_nat n) (Z.of_nat (n - 1 - k mod n) + -1))
        with false by (symmetry; apply Z.leb_gt; lia).
      replace (Z.ltb (Z.of_nat (n - 1 - k mod n) + -1) 0) with false
        by (symmetry; apply Z.ltb_ge; lia).
      simpl. f_equal. lia.
  - rewrite Nat.even_succ, <- Nat.negb_even.
    destruct (Nat.even (k / n)); cbn [fst snd negb].
    + replace (Z.leb (Z.of_nat n) (Z.of_nat (k mod n) + 1)) with true
        by (symmetry; apply Z.leb_le; lia).
      simpl. f_equal. lia.
    + replace (Z.ltb (Z.of_nat (n - 1 - k mod n) + -1) 0) with true
        by (symmetry; apply Z.ltb_lt; lia).
      rewrite orb_true_r. f_equal. lia.
Qed.

Lemma snake_index_range n k :
  (0 < n)%nat -> (0 <= Generator.snake_index n k < Z.of_nat n)%Z.
Proof.
  intros Hn. unfold Generator.snake_index, Generator.snake_state.
  pose proof (Nat.mod_upper_bound k n ltac:(lia)).
  destruct (Nat.even (k / n)); simpl; lia.
Qed.

(** The loop started after [k] players: every group keeps its name and
    receives, behind the players it has, its members among the rest. *)
Lemma distribute_by_rows n currentPlayers :
  (0 < n)%nat ->
  forall k groups,
    length groups = n ->
    exists groups',
      Generator.distribute (Z.of_nat n) currentPlayers groups
        (Generator.snake_state n k).1 (Generator.snake_state n k).2
      = Some groups'
      /\ length groups' = n
      /\ forall i g, groups !! i = Some g ->
           exists g',
             groups' !! i = Some g'
             /\ Group.name g' = Group.name g
             /\ Group.players g'
                = Group.players g
                  ++ Generator.members n i k currentPlayers.
Proof.
  intros Hn. induction currentPlayers as [| p rest IH]; intros k groups Hlen.
  - exists groups. split; [reflexivity | split; [exact Hlen |]].
    intros i g Hg. exists g. simpl. now rewrite app_nil_r.
  - pose proof (snake_index_range n k Hn) as Hrange.
    unfold Generator.snake_index in Hrange.
    destruct (assign_in_range groups (Generator.snake_state n k).1 p)
      as (g0 & Hg0 & Ha); [lia | lia |].
    cbn [Generator.distribute]. rewrite Ha, (advance_snake_state n k Hn).
    destruct (Generator.snake_state n (S k)) as [gi' d'] eqn:Hstate.
    match goal with |- context [Generator.distribute _ _ ?gs _ _] =>
      destruct (IH (S k) gs) as (groups' & Hrun & Hlen' & Hrows)
    end.
    { now rewrite length_insert. }
    rewrite Hstate in Hrun. cbn [fst snd] in Hrun.
    exists groups'. split; [exact Hrun | split; [exact Hlen' |]].
    intros i g Hg. cbn [Generator.members].
    unfold Generator.snake_index at 1.
    destruct (Z.eqb_spec (Generator.snake_state n k).1 (Z.of_nat i))
      as [Heq | Hne].
    + rewrite Heq, Nat2Z.id in Hg0, Hrows.
      assert (g0 = g) by congruence. subst g0.
      edestruct Hrows as (g' & Hg' & Hname & Hplayers).
      { apply list_lookup_insert_eq. eapply lookup_lt_Some; eauto. }
      exists g'. split; [exact Hg' | split; [exact Hname |]].
      rewrite Hplayers. simpl. now rewrite <- app_assoc.
    + edestruct (Hrows i g) as (g' & Hg' & Hname & Hplayers).
      { rewrite list_lookup_insert_ne; [exact Hg | lia]. }
      exists g'. split; [exact Hg' | split; [exact Hname | exact Hplayers]].
Qed.

Lemma snake_state_0 n : (0 < n)%nat -> Generator.snake_state n 0 = (0%Z, 1%Z).
Proof.
  intros Hn. unfold Generator.snake_state.
  now rewrite Nat.Div0.div_0_l, Nat.Div0.mod_0_l.
Qed.

(** The groups of the answer, from the order of distribution. *)
Lemma rows_after_recompute n ps :
  (0 < n)%nat ->
  exists groups,
    Generator.distribute (Z.of_nat n) ps
      (Generator.new_groups (Z.of_nat n)) 0 1 = Some groups
    /\ map Generator.recompute groups
       = map (fun i =>
                {| Group.name := Generator.group_name i;
                   Group.players := Generator.members n i 0 ps;
                   Group.totalSkill :=
                     foldr Z.add 0%Z
                       (map Player.skill (Generator.members n i 0 ps)) |})
             (seq 0 n).
Proof.
  intros Hn.
  destruct (distribute_by_rows n ps Hn 0 (Generator.new_groups (Z.of_nat n)))
    as (groups & Hrun & Hlen & Hrows).
  { now rewrite new_groups_length, Nat2Z.id. }
  rewrite (snake_state_0 n Hn) in Hrun. exists groups.
  split; [exact Hrun |].
  apply list_eq. intros i.
  change (map Generator.recompute groups)
    with (Generator.recompute <$> groups).
  match goal with |- _ = map ?f _ !! i =>
    change (map f (seq 0 n)) with (f <$> seq 0 n) end.
  rewrite !list_lookup_fmap.
  destruct (decide (i < n)%nat) as [Hi | Hi].
  - rewrite lookup_seq_lt by exact Hi. simpl.
    edestruct (Hrows i) as (g' & Hg' & Hname & Hplayers).
    { unfold Generator.new_groups.
      change (map ?f ?l) with (f <$> l).
      rewrite list_lookup_fmap, Nat2Z.id, lookup_seq_lt by exact Hi.
      reflexivity. }
    rewrite Hg'. simpl in *. unfold Generator.recompute.
    now rewrite Hname, Hplayers, sum_skill_foldr.
  - rewrite lookup_seq_ge by lia.
    now rewrite (lookup_ge_None_2 groups i) by lia.
Qed.

Section ClosedForm.

Variable localeCompare : string -> string -> Z.

(** X2: the answer in closed form.  With [n] groups, from 1 to [2^32 - 1],
    and at least one player, player [k] of the distribution order (sorted or
    shuffled) goes to group [k mod n] when the row [k div n] is even and to
    group [n - 1 - k mod n] when it is odd; group [i] of the answer bears
    name [i], holds exactly those players, in that order, and their total
    skill. *)
Theorem answer_in_closed_form db heap outingId shuffle_param players random
    outing elements n :
  outingId <> "" ->
  db !! outingId = Some outing ->
  heap !! players = Some elements ->
  elements <> [] ->
  Outings.number_of_groups outing = Z.of_nat n ->
  (0 < n)%nat ->
  (Z.of_nat n <= Generator.max_array_length)%Z ->
  (Generator.get_groups localeCompare db heap outingId shuffle_param players
     random).2
  = Json 200
      {| Generator.outingName := Outings.name outing;
         Generator.numberOfGroups := Some (Z.of_nat n);
         Generator.groups :=
           map (fun i =>
                  let mine :=
                    Generator.members n i 0
                      (Generator.ordered localeCompare shuffle_param random
                         elements) in
                  {| Group.name := Generator.group_name i;
                     Group.players := mine;
                     Group.totalSkill :=
                       foldr Z.add 0%Z (map Player.skill mine) |})
               (seq 0 n);
         Generator.message := None |}.
Proof.
  intros Hid Hdb Hheap Hne Hcount Hn Hmax.
  erewrite get_groups_run by (eassumption || now rewrite Hcount).
  cbn [snd]. rewrite Hcount.
  destruct (rows_after_recompute n
              (Generator.ordered localeCompare shuffle_param random elements)
              Hn) as (groups & -> & ->).
  reflexivity.
Qed.

End ClosedForm.

Lemma answer_in_closed_form_witness :
  (Generator.get_groups Generator.code_unit_compare Generator.example_outings
     Generator.example_heap "o1" None 0%nat Generator.always_half).2
  = Json 200
      {| Generator.outingName := "Open";
         Generator.numberOfGroups := Some 3%Z;
         Generator.groups :=
           map (fun i =>
                  let mine :=
                    Generator.members 3 i 0
                      (Generator.ordered Generator.code_unit_compare None
                         Generator.always_half Generator.example_players) in
                  {| Group.name := Generator.group_name i;
                     Group.players := mine;
                     Group.totalSkill :=
                       foldr Z.add 0%Z (map Player.skill mine) |})
               (seq 0 3);
         Generator.message := None |}.
Proof.
  apply (answer_in_closed_form Generator.code_unit_compare
           Generator.example_outings Generator.example_heap "o1" None 0%nat
           Generator.always_half
           {| Outings.name := "Open"; Outings.number_of_groups := 3 |}
           Generator.example_players 3).
  - discriminate.
  - reflexivity.
  - reflexivity.
  - discriminate.
  - reflexivity.
  - lia.
  - discriminate.
Defined.

(** ** More groups than players, and a single group *)

Lemma snake_index_first_row n k :
  (k < n)%nat -> Generator.snake_index n k = Z.of_nat k.
Proof.
  intros Hk. unfold Generator.snake_index, Generator.snake_state.
  now rewrite Nat.div_small, Nat.mod_small by exact Hk.
Qed.

Lemma members_first_row n i ps :
  forall k,
    (k + length ps <= n)%nat ->
    Generator.members n i k ps
    = if decide (k <= i)%nat then option_list (ps !! (i - k)%nat) else [].
Proof.
  induction ps as [| p rest IH]; intros k Hk; simpl.
  - now destruct (decide (k <= i)%nat).
  - simpl in Hk. rewrite snake_index_first_row by lia.
    rewrite (IH (S k)) by lia.
    destruct (Z.eqb_spec (Z.of_nat k) (Z.of_nat i)) as [Heq | Hne].
    + apply Nat2Z.inj in Heq. subst k.
      repeat case_decide; try lia. now rewrite Nat.sub_diag.
    + repeat case_decide; try lia; [| reflexivity].
      replace (i - k)%nat with (S (i - S k)) by lia. reflexivity.
Qed.




Section EdgeCounts.

Variable localeCompare : string -> string -> Z.

(** X3: when there are at least as many groups as players, and no more
    than [2^32 - 1], the players go one to a group in the order of
    distribution: group [i] holds player [i] alone and has that player's
    skill as its total, and the groups behind the last player are in the
    answer, empty, with total 0. *)
Theorem one_player_per_group_when_groups_suffice db heap outingId
    shuffle_param players random outing elements n :
  outingId <> "" ->
  db !! outingId = Some outing ->
  heap !! players = Some elements ->
  elements <> [] ->
  Outings.number_of_groups outing = Z.of_nat n ->
  (length elements <= n)%nat ->
  (Z.of_nat n <= Generator.max_array_length)%Z ->
  (Generator.get_groups localeCompare db heap outingId shuffle_param players
     random).2
  = Json 200
      {| Generator.outingName := Outings.name outing;
         Generator.numberOfGroups := Some (Z.of_nat n);
         Generator.groups :=
           map (fun i =>
                  match Generator.ordered localeCompare shuffle_param random
                          elements !! i with
                  | Some p =>
                      {| Group.name := Generator.group_name i;
                         Group.players := [p];
                         Group.totalSkill := Player.skill p |}
                  | None =>
                      {| Group.name := Generator.group_name i;
                         Group.players := [];
                         Group.totalSkill := 0 |}
                  end)
               (seq 0 n);
         Generator.message := None |}.
Proof.
  intros Hid Hdb Hheap Hne Hcount Hn Hmax.
  assert (0 < n)%nat by (destruct elements; [congruence | simpl in Hn; lia]).
  erewrite get_groups_run by (eassumption || now rewrite Hcount).
  cbn [snd]. rewrite Hcount.
  set (ps := Generator.ordered localeCompare shuffle_param random elements).
  assert (Hlen : (0 + length ps <= n)%nat).
  { unfold ps. rewrite (Permutation_length (ordered_Permutation _ _ _ _)).
    exact Hn. }
  destruct (rows_after_recompute n ps) as (groups & -> & ->); [lia |].
  do 2 f_equal. apply map_ext. intros i.
  rewrite (members_first_row n i ps 0 Hlen). simpl. rewrite Nat.sub_0_r.
  destruct (ps !! i) as [p |]; simpl; [f_equal; lia | reflexivity].
Qed.


End EdgeCounts.

Lemma one_player_per_group_when_groups_suffice_witness :
  let db : gmap string Outings.outing :=
    {[ "o9" := {| Outings.name := "Nine";
                  Outings.number_of_groups := 5 |} ]} in
  (Generator.get_groups Generator.code_unit_compare db
     Generator.example_heap "o9" None 0%nat Generator.always_half).2
  = Json 200
      {| Generator.outingName := "Nine";
         Generator.numberOfGroups := Some 5%Z;
         Generator.groups :=
           map (fun i =>
                  match Generator.ordered Generator.code_unit_compare None
                          Generator.always_half Generator.example_players
                        !! i with
                  | Some p =>
                      {| Group.name := Generator.group_name i;
                         Group.players := [p];
                         Group.totalSkill := Player.skill p |}
                  | None =>
                      {| Group.name := Generator.group_name i;
                         Group.players := [];
                         Group.totalSkill := 0 |}
                  end)
               (seq 0 5);
         Generator.message := None |}.
Proof.
  intros db.
  apply (one_player_per_group_when_groups_suffice Generator.code_unit_compare
           db Generator.example_heap "o9" None 0%nat Generator.always_half
           {| Outings.name := "Nine"; Outings.number_of_groups := 5 |}
           Generator.example_players 5).
  - discriminate.
  - reflexivity.
  - reflexivity.
  - discriminate.
  - reflexivity.
  - simpl. lia.
  - discriminate.
Defined.


(** ** The order of the balanced mode *)

Section BalancedOrder.

Variable localeCompare : string -> string -> Z.

Lemma compare_skills a b :
  ((Generator.compare localeCompare a b <= 0)%Z ->
   (Player.skill b <= Player.skill a)%Z)
  /\ ((0 < Generator.compare localeCompare a b)%Z ->
      (Player.skill a <= Player.skill b)%Z).
Proof.
  unfold Generator.compare.
  destruct (Z.eqb_spec (Player.skill b) (Player.skill a)); simpl; lia.
Qed.

Lemma insert_by_skill x l :
  Sorted (fun a b => (Player.skill b <= Player.skill a)%Z) l ->
  Sorted (fun a b => (Player.skill b <= Player.skill a)%Z)
         (Generator.insert localeCompare x l).
Proof.
  induction 1 as [| y l Hl IH Hhd]; simpl; [repeat constructor |].
  destruct (Z.leb_spec (Generator.compare localeCompare x y) 0) as [H | H].
  - repeat constructor; try assumption.
    exact (proj1 (compare_skills x y) H).
  - constructor; [exact IH |].
    apply (proj2 (compare_skills x y)) in H.
    destruct Hhd as [| z l Hz]; simpl; [now constructor |].
    destruct (Z.leb (Generator.compare localeCompare x z) 0);
      now constructor.
Qed.

Lemma sort_by_skill l :
  StronglySorted (fun a b => (Player.skill b <= Player.skill a)%Z)
                 (Generator.sort localeCompare l).
Proof.
  apply Sorted_StronglySorted; [intros a b c; lia |].
  induction l as [| x l IH]; simpl; [constructor | now apply insert_by_skill].
Qed.

(** X5: in balanced mode the copy of the player array that the handler
    leaves in its fresh heap cell is the input reordered by skill, highest
    first: no player comes before a player of higher skill.  When the
    collation orders the names, players of the same skill are in the order of
    their names. *)
Theorem balanced_mode_orders_by_skill db heap outingId shuffle_param players
    random outing elements :
  outingId <> "" ->
  db !! outingId = Some outing ->
  heap !! players = Some elements ->
  elements <> [] ->
  shuffle_param <> Some "true" ->
  exists currentPlayers,
    (Generator.get_groups localeCompare db heap outingId shuffle_param
       players random).1 !! fresh (dom heap) = Some currentPlayers
    /\ currentPlayers ≡ₚ elements
    /\ StronglySorted (fun a b => (Player.skill b <= Player.skill a)%Z)
                      currentPlayers
    /\ (Generator.collation_orders localeCompare ->
        Sorted (fun a b =>
                  (Player.skill b < Player.skill a)%Z
                  \/ (Player.skill b = Player.skill a
                      /\ (localeCompare (Player.name a) (Player.name b)
                          <= 0)%Z))
               currentPlayers).
Proof.
  intros Hid Hdb Hheap Hne Hmode.
  erewrite get_groups_heap by eassumption.
  rewrite lookup_insert_eq. eexists. split; [reflexivity |].
  split; [apply ordered_Permutation |].
  unfold Generator.ordered. rewrite (bool_decide_eq_false_2 _ Hmode).
  split; [apply sort_by_skill |].
  intros Hcollation.
  rewrite <- (list_fmap_id (Generator.sort localeCompare elements)).
  apply (Sorted_fmap id (Generator.not_after localeCompare));
    [| apply (sort_Sorted localeCompare Hcollation)].
  intros a b. apply not_after_cases.
Qed.

End BalancedOrder.

Lemma balanced_mode_orders_by_skill_witness :
  exists currentPlayers,
    (Generator.get_groups Generator.code_unit_compare
       Generator.example_outings Generator.example_heap "o1" None 0%nat
       Generator.always_half).1 !! fresh (dom Generator.example_heap)
    = Some currentPlayers
    /\ currentPlayers ≡ₚ Generator.example_players
    /\ StronglySorted (fun a b => (Player.skill b <= Player.skill a)%Z)
                      currentPlayers
    /\ (Generator.collation_orders Generator.code_unit_compare ->
        Sorted (fun a b =>
                  (Player.skill b < Player.skill a)%Z
                  \/ (Player.skill b = Player.skill a
                      /\ (Generator.code_unit_compare (Player.name a)
                            (Player.name b) <= 0)%Z))
               currentPlayers).
Proof.
  apply (balanced_mode_orders_by_skill Generator.code_unit_compare
           Generator.example_outings Generator.example_heap "o1" None 0%nat
           Generator.always_half
           {| Outings.name := "Open"; Outings.number_of_groups := 3 |}
           Generator.example_players).
  - discriminate.
  - reflexivity.
  - reflexivity.
  - discriminate.
  - discriminate.
Defined.

(** ** The totals add up, and the draws that are read *)


Lemma fisher_yates_loop_ext {A : Type} random1 random2 i :
  forall k (a : list A),
    (forall j, (j < i)%nat -> random1 (k + j)%nat = random2 (k + j)%nat) ->
    Generator.fisher_yates_loop random1 k i a
    = Generator.fisher_yates_loop random2 k i a.
Proof.
  induction i as [| i IH]; intros k a H; simpl; [reflexivity |].
  rewrite <- (Nat.add_0_r k) at 2 4. rewrite (H 0%nat) by lia.
  rewrite Nat.add_0_r. apply IH. intros j Hj.
  specialize (H (S j)). rewrite Nat.add_succ_r in H. apply H. lia.
Qed.

Section Totals.

Variable localeCompare : string -> string -> Z.


(** X7: the randomized mode reads the first [n - 1] values of
    [Math.random()] only, [n] being the number of players: two sources that
    agree on them give the same answer and leave the same heap. *)
Theorem randomized_mode_reads_n_minus_1_draws db heap outingId shuffle_param
    players random1 random2 elements :
  heap !! players = Some elements ->
  (forall k, (k < length elements - 1)%nat -> random1 k = random2 k) ->
  Generator.get_groups localeCompare db heap outingId shuffle_param players
    random1
  = Generator.get_groups localeCompare db heap outingId shuffle_param players
      random2.
Proof.
  intros Hheap Hdraws. unfold Generator.get_groups. rewrite Hheap.
  destruct elements as [| p ps]; [reflexivity |].
  destruct (bool_decide (shuffle_param = Some "true")); [| reflexivity].
  rewrite !alter_insert_eq. unfold Generator.fisher_yates.
  now rewrite (fisher_yates_loop_ext random1 random2
                 (length (p :: ps) - 1) 0 (p :: ps) Hdraws).
Qed.

End Totals.


Lemma randomized_mode_reads_n_minus_1_draws_witness :
  Generator.get_groups Generator.code_unit_compare Generator.example_outings
    Generator.example_heap "o1" (Some "true") 0%nat Generator.always_half
  = Generator.get_groups Generator.code_unit_compare
      Generator.example_outings Generator.example_heap "o1" (Some "true")
      0%nat (fun k => if Nat.ltb k 3 then 1 # 2 else 3 # 4).
Proof.
  apply (randomized_mode_reads_n_minus_1_draws Generator.code_unit_compare
           Generator.example_outings Generator.example_heap "o1"
           (Some "true") 0%nat Generator.always_half
           (fun k => if Nat.ltb k 3 then 1 # 2 else 3 # 4)
           Generator.example_players).
  - reflexivity.
  - intros k Hk. simpl in Hk.
    now replace (Nat.ltb k 3) with true by (symmetry; apply Nat.ltb_lt; lia).
Defined.

(** ** Group names are distinct for every group count *)

Lemma string_length_append (s t : string) :
  String.length (s ++ t)%string = (String.length s + String.length t)%nat.
Proof. induction s as [| c s IH]; simpl; [reflexivity | now rewrite IH]. Qed.

Lemma string_append_cancel_r (s1 s2 t : string) :
  (s1 ++ t)%string = (s2 ++ t)%string -> s1 = s2.
Proof.
  revert s2. induction s1 as [| c s1 IH]; intros [| c2 s2] H;
    try reflexivity.
  - apply (f_equal String.length) in H.
    rewrite !string_length_append in H. simpl in H. exfalso. lia.
  - apply (f_equal String.length) in H.
    rewrite !string_length_append in H. simpl in H. exfalso. lia.
  - change (String c (s1 ++ t)%string = String c2 (s2 ++ t)%string) in H.
    injection H as -> H. f_equal. now apply IH.
Qed.

Lemma decimal_inj n m : Generator.decimal n = Generator.decimal m -> n = m.
Proof.
  assert (Hnil : forall k, Nat.to_uint k <> Decimal.Nil).
  { intros k H. assert (k = 0%nat)
      by (rewrite <- (DecimalNat.Unsigned.of_to k), H; reflexivity).
    subst k. discriminate H. }
  unfold Generator.decimal. intros H.
  apply (f_equal NilZero.uint_of_string) in H.
  rewrite !NilZero.usu in H by apply Hnil.
  injection H as H. apply (f_equal Nat.of_uint) in H.
  now rewrite !DecimalNat.Unsigned.of_to in H.
Qed.

(** No entry of the catalog holds a parenthesis. *)
Lemma catalog_without_paren a s :
  (a < 26)%nat ->
  Generator.up_to_paren
    (nth a Generator.GOLF_GROUP_NAMES "undefined" ++ s)%string
  = (nth a Generator.GOLF_GROUP_NAMES "undefined"
     ++ Generator.up_to_paren s)%string
  /\ Generator.from_paren
       (nth a Generator.GOLF_GROUP_NAMES "undefined" ++ s)%string
     = Generator.from_paren s.
Proof.
  intros Ha.
  do 26 (destruct a as [| a]; [split; reflexivity |]). lia.
Qed.

Lemma catalog_entries_distinct a b :
  (a < 26)%nat -> (b < 26)%nat ->
  nth a Generator.GOLF_GROUP_NAMES "undefined"
  = nth b Generator.GOLF_GROUP_NAMES "undefined" ->
  a = b.
Proof.
  intros Ha Hb H.
  assert (Hnd : NoDup Generator.GOLF_GROUP_NAMES)
    by (apply (bool_decide_unpack _); vm_compute; reflexivity).
  apply (proj1 (List.NoDup_nth Generator.GOLF_GROUP_NAMES "undefined"));
    [now apply NoDup_ListNoDup | exact Ha | exact Hb | exact H].
Qed.

Lemma from_paren_suffix d :
  Generator.from_paren (" (" ++ d ++ ")")%string
  = String.String "("%char (d ++ ")")%string.
Proof. reflexivity. Qed.

Lemma up_to_paren_suffix d :
  Generator.up_to_paren (" (" ++ d ++ ")")%string = " ".
Proof. reflexivity. Qed.

Lemma group_name_inj i j :
  Generator.group_name i = Generator.group_name j -> i = j.
Proof.
  unfold Generator.group_name. rewrite catalog_length. intros H.
  pose proof (Nat.mod_upper_bound i 26 ltac:(lia)) as Hi.
  pose proof (Nat.mod_upper_bound j 26 ltac:(lia)) as Hj.
  pose proof (f_equal Generator.up_to_paren H) as Hup.
  pose proof (f_equal Generator.from_paren H) as Hfrom.
  rewrite !(proj1 (catalog_without_paren _ _ Hi)),
    !(proj1 (catalog_without_paren _ _ Hj)) in Hup.
  rewrite !(proj2 (catalog_without_paren _ _ Hi)),
    !(proj2 (catalog_without_paren _ _ Hj)) in Hfrom.
  clear H.
  assert (Hqr : (i / 26 = j / 26 /\ i mod 26 = j mod 26)%nat).
  { destruct (Nat.ltb_spec 0 (i / 26)) as [Hqi | Hqi],
      (Nat.ltb_spec 0 (j / 26)) as [Hqj | Hqj];
      rewrite ?from_paren_suffix, ?up_to_paren_suffix in Hfrom, Hup;
      try discriminate Hfrom.
    - injection Hfrom as Hfrom.
      change (Generator.decimal (i / 26 + 1) ++ ")"
              = Generator.decimal (j / 26 + 1) ++ ")")%string in Hfrom.
      apply string_append_cancel_r in Hfrom.
      apply decimal_inj in Hfrom. split; [lia |].
      apply string_append_cancel_r in Hup.
      now apply catalog_entries_distinct.
    - split; [lia |].
      apply string_append_cancel_r in Hup.
      now apply catalog_entries_distinct. }
  rewrite (Nat.div_mod_eq i 26), (Nat.div_mod_eq j 26).
  now rewrite (proj1 Hqr), (proj2 Hqr).
Qed.

(** X8: whatever the group count, no two groups of a generation bear the same
    name. *)
Theorem group_names_distinct_for_every_count numberOfGroups :
  NoDup (map Group.name (Generator.new_groups numberOfGroups)).
Proof.
  rewrite new_groups_names.
  apply (NoDup_fmap_2_strong Generator.group_name); [| apply NoDup_seq].
  intros i j _ _. apply group_name_inj.
Qed.

Lemma generation_needs_a_group_witness :
  let db : gmap string Outings.outing :=
    {[ "o0" := {| Outings.name := "None";
                  Outings.number_of_groups := 0 |} ]} in
  (Generator.get_groups Generator.code_unit_compare db
     Generator.example_heap "o0" None 0%nat Generator.always_half).2
  = Error 500 "Failed to generate groups".
Proof.
  intros db.
  apply (generation_needs_a_group Generator.code_unit_compare db
           Generator.example_heap "o0" None 0%nat Generator.always_half
           {| Outings.name := "None"; Outings.number_of_groups := 0 |}
           Generator.example_players).
  - discriminate.
  - reflexivity.
  - reflexivity.
  - discriminate.
  - simpl. lia.
Defined.

Lemma stored_outings_generate_up_to_the_array_limit_witness :
  let db :=
    Outings.run [Outings.POST "o1" (Js.String "Open") Js.Undefined;
                 Outings.PUT "o1" Js.Undefined
                   (Js.Number (Js.Finite (inject_Z 4294967296)))] in
  db !! "o1"
  = Some {| Outings.name := "Open";
            Outings.number_of_groups := 4294967296 |}
  /\ (Generator.get_groups Generator.code_unit_compare db
        Generator.example_heap "o1" (Some "true") 0%nat
        Generator.always_half).2
     = Error 500 "Failed to generate groups".
Proof.
  intros db.
  assert (Hdb : db !! "o1"
                = Some {| Outings.name := "Open";
                          Outings.number_of_groups := 4294967296 |})
    by (vm_compute; reflexivity).
  split; [exact Hdb |].
  apply (stored_outings_generate_up_to_the_array_limit
           Generator.code_unit_compare db
           Generator.example_heap "o1" (Some "true") 0%nat
           Generator.always_half
           {| Outings.name := "Open";
              Outings.number_of_groups := 4294967296 |}
           Generator.example_players).
  - apply run_reachable.
  - discriminate.
  - exact Hdb.
  - reflexivity.
  - discriminate.
  - reflexivity.
Defined.

(** * The store under the endpoints *)

Lemma name_lower_taken_spec rows s :
  Store.name_lower_taken rows s = true
  <-> exists id r, rows !! id = Some r /\ PlayerRow.name_lower r = s.
Proof.
  unfold Store.name_lower_taken.
  now rewrite bool_decide_eq_true, map_Exists_lookup.
Qed.

Lemma name_lower_free rows s :
  Store.name_lower_taken rows s = false ->
  forall id r, rows !! id = Some r -> PlayerRow.name_lower r <> s.
Proof.
  intros H id r Hr Hs.
  assert (Store.name_lower_taken rows s = true)
    by (apply name_lower_taken_spec; eauto).
  congruence.
Qed.

Lemma table_check_after_test skill :
  Players.passes_skill_test skill -> Players.table_check skill = true.
Proof.
  destruct skill as [| | b | [q | | |] | s |]; try contradiction;
    [| reflexivity].
  intros [H1 H2]. unfold Players.table_check.
  apply andb_true_iff. split; apply negb_true_iff.
  - destruct (Js.num_lt (Js.Finite q) 1) eqn:E; [| reflexivity].
    apply num_lt_spec in E. exfalso. exact (Qlt_not_le _ _ E H1).
  - destruct (Js.num_gt (Js.Finite q) 10) eqn:E; [| reflexivity].
    apply num_gt_spec in E. exfalso. exact (Qlt_not_le _ _ E H2).
Qed.

(** What the two validations let through to the store. *)
Lemma post_player_to_store name skill n v :
  Players.post_player name skill = Players.ToStore (n, v) ->
  name = Js.String n /\ v = skill /\ Players.passes_skill_test skill.
Proof.
  unfold Players.post_player.
  destruct (negb (Js.truthy name) || Js.not_a_non_empty_string name) eqn:En;
    [discriminate |].
  destruct (Js.is_undefined skill || negb (Js.typeof_number skill)
            || Js.lt skill 1 || Js.gt skill 10) eqn:Es; [discriminate |].
  intros H. injection H as <- <-. apply skill_test_spec in Es.
  split; [| now split].
  destruct name; simpl in En; rewrite ?orb_true_r in En;
    try discriminate En. reflexivity.
Qed.

Lemma put_player_to_store id name skill name_update skill_update :
  Players.put_player id name skill
  = Players.ToStore (name_update, skill_update) ->
  id <> ""
  /\ name_update = (if Js.is_undefined name then None
                    else Some (Js.string_of name))
  /\ (forall n, name_update = Some n -> name = Js.String n)
  /\ skill_update = (if Js.is_undefined skill then None else Some skill)
  /\ (forall v, skill_update = Some v -> Players.passes_skill_test v).
Proof.
  unfold Players.put_player.
  destruct (String.eqb_spec id "") as [| Hid]; [discriminate |].
  destruct (negb (Js.truthy name) && Js.is_undefined skill);
    [discriminate |].
  destruct (negb (Js.is_undefined name) && Js.not_a_non_empty_string name)
    eqn:En; [discriminate |].
  destruct (negb (Js.is_undefined skill)
            && (negb (Js.typeof_number skill)
                || Js.lt skill 1 || Js.gt skill 10)) eqn:Es;
    [discriminate |].
  intros H.
  assert (Hu : name_update = (if Js.is_undefined name then None
                              else Some (Js.string_of name))
               /\ skill_update = (if Js.is_undefined skill then None
                                  else Some skill)).
  { destruct (Js.is_undefined name), (Js.is_undefined skill);
      try discriminate H; now injection H as <- <-. }
  destruct Hu as [-> ->]. split; [assumption |].
  split; [reflexivity | split; [| split; [reflexivity |]]].
  - intros n Hn. destruct name; simpl in En, Hn;
      try discriminate En; try discriminate Hn. congruence.
  - intros v Hv. destruct (Js.is_undefined skill) eqn:Eu;
      [discriminate |]. injection Hv as <-.
    apply skill_test_spec. simpl in Es. now rewrite Eu.
Qed.

Section StoreInvariant.

Variable toLowerCase : string -> string.
Variable reports_name_lower : bool.

Lemma in_range_of_test v :
  Players.passes_skill_test v -> v <> Js.Number Js.NaN ->
  exists q, v = Js.Number (Js.Finite q) /\ (1 <= q)%Q /\ (q <= 10)%Q.
Proof.
  destruct v as [| | b | [q | | |] | s |]; try contradiction; eauto.
Qed.

Lemma empty_well_formed : Store.well_formed toLowerCase Store.empty.
Proof.
  split; simpl.
  - intros id r H. now rewrite lookup_empty in H.
  - intros id1 id2 r1 r2 H. now rewrite lookup_empty in H.
  - intros id r H. now rewrite lookup_empty in H.
  - intros o p H. set_solver.
  - apply map_Forall_empty.
Qed.

Lemma post_player_well_formed st id name skill :
  Store.well_formed toLowerCase st -> skill <> Js.Number Js.NaN ->
  Store.well_formed toLowerCase
    (Store.post_player toLowerCase st id name skill).1.
Proof.
  intros Hwf Hjson. unfold Store.post_player.
  destruct (Players.post_player name skill) as [r | [n v]] eqn:Hv;
    [exact Hwf |].
  apply post_player_to_store in Hv. destruct Hv as (_ & -> & Htest).
  destruct (Store.name_lower_taken (Store.players st) (toLowerCase n))
    eqn:Htaken; [exact Hwf |].
  destruct (bool_decide (is_Some (Store.players st !! id))) eqn:Hid;
    [exact Hwf |].
  cbn [orb].
  destruct (Store.name_taken (Store.players st) n
            || negb (Players.table_check skill)); [exact Hwf |].
  apply bool_decide_eq_false in Hid.
  assert (Hnone : Store.players st !! id = None)
    by (destruct (Store.players st !! id); [exfalso; eauto | reflexivity]).
  pose proof (name_lower_free _ _ Htaken) as Hfree.
  destruct Hwf as [H1 H2 H3 H4 H5]. split; simpl.
  - intros i r Hr. apply lookup_insert_Some in Hr.
    destruct Hr as [[_ <-] | [_ Hr]]; [reflexivity | eauto].
  - intros i1 i2 r1 r2 Hr1 Hr2 Heq.
    apply lookup_insert_Some in Hr1, Hr2.
    destruct Hr1 as [[<- <-] | [Hn1 Hr1]], Hr2 as [[<- <-] | [Hn2 Hr2]];
      simpl in Heq; try reflexivity.
    + exfalso. exact (Hfree _ _ Hr2 (eq_sym Heq)).
    + exfalso. exact (Hfree _ _ Hr1 Heq).
    + eauto.
  - intros i r Hr. apply lookup_insert_Some in Hr.
    destruct Hr as [[_ <-] | [_ Hr]]; [| eauto].
    simpl. now apply in_range_of_test.
  - intros o p Hm. destruct (H4 o p Hm) as [Ho Hp]. split; [exact Ho |].
    destruct (decide (id = p)) as [-> | Hne].
    + rewrite lookup_insert_eq. eauto.
    + now rewrite lookup_insert_ne.
  - exact H5.
Qed.

Lemma put_player_well_formed st id name skill :
  Store.well_formed toLowerCase st -> skill <> Js.Number Js.NaN ->
  Store.well_formed toLowerCase
    (Store.put_player toLowerCase reports_name_lower st id name skill).1.
Proof.
  intros Hwf Hjson. unfold Store.put_player.
  destruct (Players.put_player id name skill) as [r | [nu su]] eqn:Hv;
    [exact Hwf |].
  apply put_player_to_store in Hv.
  destruct Hv as (_ & _ & _ & Hsu & Htest).
  destruct (Store.players st !! id) as [row |] eqn:Hrow; [| exact Hwf].
  set (others := delete id (Store.players st)).
  destruct (from_option _ false nu) eqn:Hlower;
    [destruct (negb _ || reports_name_lower); exact Hwf |].
  cbn [andb orb].
  destruct (from_option (fun n => Store.name_taken others n) false nu);
    [exact Hwf |].
  destruct (from_option _ false su); [exact Hwf |]. cbn [orb fst].
  destruct Hwf as [H1 H2 H3 H4 H5]. split; simpl.
  - intros i r Hr. apply lookup_insert_Some in Hr.
    destruct Hr as [[_ <-] | [_ Hr]]; [| eauto].
    destruct nu as [n |]; simpl; [reflexivity | eauto].
  - assert (Hfree : forall i r,
              Store.players st !! i = Some r -> i <> id ->
              PlayerRow.name_lower r
              <> default (PlayerRow.name_lower row) (toLowerCase <$> nu)).
    { intros i r Hr Hi. destruct nu as [n |]; simpl in *.
      - apply (name_lower_free others _ Hlower i).
        unfold others. now rewrite lookup_delete_ne.
      - intros Heq. apply Hi. exact (H2 _ _ _ _ Hr Hrow Heq). }
    intros i1 i2 r1 r2 Hr1 Hr2 Heq.
    apply lookup_insert_Some in Hr1, Hr2.
    destruct Hr1 as [[<- <-] | [Hn1 Hr1]], Hr2 as [[<- <-] | [Hn2 Hr2]];
      simpl in Heq; try reflexivity.
    + exfalso. apply (Hfree _ _ Hr2); congruence.
    + exfalso. apply (Hfree _ _ Hr1); congruence.
    + eauto.
  - intros i r Hr. apply lookup_insert_Some in Hr.
    destruct Hr as [[_ <-] | [_ Hr]]; [| eauto]. simpl.
    destruct su as [v |]; simpl; [| eauto].
    apply in_range_of_test; [now apply Htest |].
    destruct (Js.is_undefined skill); congruence.
  - intros o p Hm. destruct (H4 o p Hm) as [Ho Hp]. split; [exact Ho |].
    destruct (decide (id = p)) as [-> | Hne].
    + rewrite lookup_insert_eq. eauto.
    + now rewrite lookup_insert_ne.
  - exact H5.
Qed.

Lemma delete_player_well_formed st id :
  Store.well_formed toLowerCase st ->
  Store.well_formed toLowerCase (Store.delete_player st id).1.
Proof.
  intros Hwf. unfold Store.delete_player.
  destruct (String.eqb id ""); [exact Hwf |].
  destruct (Store.players st !! id) as [row |] eqn:Hrow; [| exact Hwf].
  destruct Hwf as [H1 H2 H3 H4 H5]. split; simpl.
  - intros i r Hr. apply lookup_delete_Some in Hr. destruct Hr; eauto.
  - intros i1 i2 r1 r2 Hr1 Hr2.
    apply lookup_delete_Some in Hr1, Hr2. destruct Hr1, Hr2; eauto.
  - intros i r Hr. apply lookup_delete_Some in Hr. destruct Hr; eauto.
  - intros o p Hm. apply elem_of_filter in Hm. destruct Hm as [Hne Hm].
    simpl in Hne. destruct (H4 o p Hm) as [Ho Hp]. split; [exact Ho |].
    now rewrite lookup_delete_ne.
  - exact H5.
Qed.

Lemma outings_handle_keeps_rows db req id :
  match req with Outings.DELETE _ => False | _ => True end ->
  is_Some (db !! id) -> is_Some ((Outings.handle db req).1 !! id).
Proof.
  intros Hreq Hid.
  assert (Hins : forall i o, is_Some (<[i := o]> db !! id)).
  { intros i o. destruct (decide (i = id)) as [-> | Hne];
      [rewrite lookup_insert_eq; eauto | now rewrite lookup_insert_ne]. }
  destruct req as [i name n | i name n | i]; [| | contradiction]; simpl.
  - unfold Outings.post_outing.
    destruct (negb (Js.truthy name) || Js.not_a_non_empty_string name);
      [exact Hid |].
    destruct (negb (Js.is_undefined n) && Outings.not_a_positive_integer n);
      [exact Hid |].
    destruct (db !! i); [exact Hid | apply Hins].
  - unfold Outings.put_outing.
    destruct (String.eqb i ""); [exact Hid |].
    destruct (Js.is_undefined name && Js.is_undefined n); [exact Hid |].
    destruct (negb (Js.is_undefined name) && Js.not_a_non_empty_string name);
      [exact Hid |].
    destruct (negb (Js.is_undefined n) && Outings.not_a_positive_integer n);
      [exact Hid |].
    destruct (Js.is_undefined name), (Js.is_undefined n);
      try exact Hid; (destruct (db !! i); [apply Hins | exact Hid]).
Qed.

Lemma post_outing_well_formed st id name n :
  Store.well_formed toLowerCase st ->
  Store.well_formed toLowerCase (Store.post_outing st id name n).1.
Proof.
  intros [H1 H2 H3 H4 H5]. unfold Store.post_outing.
  pose proof (handle_preserves (Store.outings st) (Outings.POST id name n) H5)
    as Hpos.
  pose proof (fun i => outings_handle_keeps_rows (Store.outings st)
                         (Outings.POST id name n) i I) as Hkeep.
  simpl in Hpos, Hkeep.
  destruct (Outings.post_outing (Store.outings st) id name n) as [o' r].
  split; simpl in *; eauto.
  intros o p Hm. destruct (H4 o p Hm). split; eauto.
Qed.

Lemma put_outing_well_formed st id name n :
  Store.well_formed toLowerCase st ->
  Store.well_formed toLowerCase (Store.put_outing st id name n).1.
Proof.
  intros [H1 H2 H3 H4 H5]. unfold Store.put_outing.
  pose proof (handle_preserves (Store.outings st) (Outings.PUT id name n) H5)
    as Hpos.
  pose proof (fun i => outings_handle_keeps_rows (Store.outings st)
                         (Outings.PUT id name n) i I) as Hkeep.
  simpl in Hpos, Hkeep.
  destruct (Outings.put_outing (Store.outings st) id name n) as [o' r].
  split; simpl in *; eauto.
  intros o p Hm. destruct (H4 o p Hm). split; eauto.
Qed.

Lemma delete_outing_well_formed st id :
  Store.well_formed toLowerCase st ->
  Store.well_formed toLowerCase (Store.delete_outing st id).1.
Proof.
  intros Hwf. unfold Store.delete_outing.
  destruct (String.eqb id ""); [exact Hwf |].
  destruct (Store.outings st !! id) as [o |] eqn:Ho; [| exact Hwf].
  destruct Hwf as [H1 H2 H3 H4 H5]. split; simpl; eauto.
  - intros o' p Hm. apply elem_of_filter in Hm. destruct Hm as [Hne Hm].
    simpl in Hne. destruct (H4 o' p Hm) as [Ho' Hp]. split; [| exact Hp].
    now rewrite lookup_delete_ne.
  - now apply map_Forall_delete.
Qed.

Lemma post_outing_player_well_formed st outingId playerId :
  Store.well_formed toLowerCase st ->
  Store.well_formed toLowerCase
    (Store.post_outing_player st outingId playerId).1.
Proof.
  intros Hwf. unfold Store.post_outing_player.
  destruct (String.eqb outingId ""); [exact Hwf |].
  destruct (negb (Js.truthy playerId) || negb (Js.typeof_string playerId));
    [exact Hwf |].
  destruct (Store.outings st !! outingId) as [o |] eqn:Ho; [| exact Hwf].
  destruct (Store.players st !! Js.string_of playerId) as [row |] eqn:Hp;
    [| exact Hwf].
  destruct (bool_decide _); [exact Hwf |].
  destruct Hwf as [H1 H2 H3 H4 H5]. split; simpl; eauto.
  intros o' p Hm. apply elem_of_union in Hm. destruct Hm as [Hm | Hm].
  - apply elem_of_singleton in Hm. injection Hm as -> ->.
    rewrite Ho, Hp. eauto.
  - eauto.
Qed.

Lemma delete_outing_player_well_formed st outingId playerId :
  Store.well_formed toLowerCase st ->
  Store.well_formed toLowerCase
    (Store.delete_outing_player st outingId playerId).1.
Proof.
  intros Hwf. unfold Store.delete_outing_player.
  destruct (String.eqb outingId "" || String.eqb playerId "");
    [exact Hwf |].
  destruct Hwf as [H1 H2 H3 H4 H5]. split; simpl; eauto.
  intros o p Hm. apply elem_of_difference in Hm. destruct Hm as [Hm _].
  eauto.
Qed.

Lemma handle_well_formed st req :
  Store.well_formed toLowerCase st -> Store.from_json req ->
  Store.well_formed toLowerCase
    (Store.handle toLowerCase reports_name_lower st req).1.
Proof.
  intros Hwf Hjson.
  destruct req as [id name skill | id name skill | id | id name n
                  | id name n | id | o p | o p]; simpl.
  - pose proof (post_player_well_formed st id name skill Hwf Hjson).
    now destruct (Store.post_player toLowerCase st id name skill).
  - pose proof (put_player_well_formed st id name skill Hwf Hjson).
    now destruct (Store.put_player _ _ st id name skill).
  - pose proof (delete_player_well_formed st id Hwf).
    now destruct (Store.delete_player st id).
  - pose proof (post_outing_well_formed st id name n Hwf).
    now destruct (Store.post_outing st id name n).
  - pose proof (put_outing_well_formed st id name n Hwf).
    now destruct (Store.put_outing st id name n).
  - pose proof (delete_outing_well_formed st id Hwf).
    now destruct (Store.delete_outing st id).
  - pose proof (post_outing_player_well_formed st o p Hwf).
    now destruct (Store.post_outing_player st o p).
  - pose proof (delete_outing_player_well_formed st o p Hwf).
    now destruct (Store.delete_outing_player st o p).
Qed.

Lemma reachable_well_formed st :
  Store.reachable toLowerCase reports_name_lower st ->
  Store.well_formed toLowerCase st.
Proof.
  induction 1 as [| st req _ IH Hjson];
    [apply empty_well_formed | now apply handle_well_formed].
Qed.

Lemma store_run_reachable reqs :
  Forall Store.from_json reqs ->
  Store.reachable toLowerCase reports_name_lower
    (Store.run toLowerCase reports_name_lower reqs).
Proof.
  unfold Store.run. induction reqs as [| req reqs IH] using rev_ind;
    intros Hall.
  - constructor.
  - apply Forall_app in Hall. destruct Hall as [Hreqs Hreq].
    rewrite foldl_app. simpl. constructor; [now apply IH |].
    now inversion Hreq.
Qed.

End StoreInvariant.

Lemma store_eta (st : Store.t) :
  {| Store.players := Store.players st;
     Store.outings := Store.outings st;
     Store.outing_players := Store.outing_players st |} = st.
Proof. now destruct st. Qed.

Lemma outings_error_writes_nothing db req :
  (400 <= Store.status (Outings.handle db req).2)%Z ->
  (Outings.handle db req).1 = db.
Proof.
  destruct req as [i name n | i name n | i]; simpl.
  - unfold Outings.post_outing.
    destruct (negb (Js.truthy name) || Js.not_a_non_empty_string name);
      [reflexivity |].
    destruct (negb (Js.is_undefined n) && Outings.not_a_positive_integer n);
      [reflexivity |].
    destruct (db !! i); [reflexivity | simpl; lia].
  - unfold Outings.put_outing.
    destruct (String.eqb i ""); [reflexivity |].
    destruct (Js.is_undefined name && Js.is_undefined n); [reflexivity |].
    destruct (negb (Js.is_undefined name) && Js.not_a_non_empty_string name);
      [reflexivity |].
    destruct (negb (Js.is_undefined n) && Outings.not_a_positive_integer n);
      [reflexivity |].
    destruct (Js.is_undefined name), (Js.is_undefined n);
      try reflexivity; (destruct (db !! i); [simpl; lia | reflexivity]).
  - unfold Outings.delete_outing.
    destruct (String.eqb i ""); [reflexivity |].
    destruct (db !! i); [simpl; lia | reflexivity].
Qed.

Section StoreProperties.

Variable toLowerCase : string -> string.
Variable reports_name_lower : bool.

(** X12: in every store the worker can reach, no two players have names
    that are equal once lower-cased. *)
Theorem names_unique_whatever_the_case st id1 id2 r1 r2 :
  Store.reachable toLowerCase reports_name_lower st ->
  Store.players st !! id1 = Some r1 ->
  Store.players st !! id2 = Some r2 ->
  toLowerCase (PlayerRow.name r1) = toLowerCase (PlayerRow.name r2) ->
  id1 = id2.
Proof.
  intros Hreach H1 H2 Heq.
  pose proof (reachable_well_formed toLowerCase reports_name_lower st Hreach)
    as Hwf.
  apply (Store.lower_unique toLowerCase st Hwf id1 id2 r1 r2 H1 H2).
  now rewrite (Store.lower_of_name toLowerCase st Hwf id1 r1 H1),
    (Store.lower_of_name toLowerCase st Hwf id2 r2 H2).
Qed.

(** X13: in every store the worker can reach from JSON bodies, the skill of
    every player is a number from 1 to 10 (an integer or not). *)
Theorem stored_skills_between_1_and_10 st id r :
  Store.reachable toLowerCase reports_name_lower st ->
  Store.players st !! id = Some r ->
  exists q,
    PlayerRow.skill r = Js.Number (Js.Finite q)
    /\ (1 <= q)%Q /\ (q <= 10)%Q.
Proof.
  intros Hreach Hr.
  exact (Store.skill_in_range toLowerCase st
           (reachable_well_formed toLowerCase reports_name_lower st Hreach)
           id r Hr).
Qed.

(** X14: in every store the worker can reach, every membership joins an
    outing and a player that are in their tables: deleting a player or an
    outing leaves no membership behind. *)
Theorem memberships_refer_to_rows st o p :
  Store.reachable toLowerCase reports_name_lower st ->
  (o, p) ∈ Store.outing_players st ->
  is_Some (Store.outings st !! o) /\ is_Some (Store.players st !! p).
Proof.
  intros Hreach Hm.
  exact (Store.members_exist toLowerCase st
           (reachable_well_formed toLowerCase reports_name_lower st Hreach)
           o p Hm).
Qed.

(** X15: a request that is answered with a status of 400 or more leaves the
    three tables as they were. *)
Theorem errors_write_nothing st req :
  (400 <= (Store.handle toLowerCase reports_name_lower st req).2)%Z ->
  (Store.handle toLowerCase reports_name_lower st req).1 = st.
Proof.
  destruct req as [id name skill | id name skill | id | id name n
                  | id name n | id | o p | o p]; simpl.
  - unfold Store.post_player.
    destruct (Players.post_player name skill) as [r | [n v]];
      [reflexivity |].
    destruct (Store.name_lower_taken _ _); [reflexivity |].
    destruct (_ || _); [reflexivity | simpl; lia].
  - unfold Store.put_player.
    destruct (Players.put_player id name skill) as [r | [nu su]];
      [reflexivity |].
    destruct (Store.players st !! id); [| reflexivity].
    destruct (_ && _); [reflexivity |].
    destruct (_ || _); [reflexivity | simpl; lia].
  - unfold Store.delete_player.
    destruct (String.eqb id ""); [reflexivity |].
    destruct (Store.players st !! id); [simpl; lia | reflexivity].
  - unfold Store.post_outing.
    pose proof (outings_error_writes_nothing (Store.outings st)
                  (Outings.POST id name n)) as H.
    simpl in H. destruct (Outings.post_outing _ _ _ _) as [o' r].
    simpl in *. intros Hs. rewrite (H Hs). apply store_eta.
  - unfold Store.put_outing.
    pose proof (outings_error_writes_nothing (Store.outings st)
                  (Outings.PUT id name n)) as H.
    simpl in H. destruct (Outings.put_outing _ _ _ _) as [o' r].
    simpl in *. intros Hs. rewrite (H Hs). apply store_eta.
  - unfold Store.delete_outing.
    destruct (String.eqb id ""); [reflexivity |].
    destruct (Store.outings st !! id); [simpl; lia | reflexivity].
  - unfold Store.post_outing_player.
    destruct (String.eqb o ""); [reflexivity |].
    destruct (_ || _); [reflexivity |].
    destruct (Store.outings st !! o); [| reflexivity].
    destruct (Store.players st !! _); [| reflexivity].
    destruct (bool_decide _); [reflexivity | simpl; lia].
  - unfold Store.delete_outing_player.
    destruct (_ || _); [reflexivity | simpl; lia].
Qed.

(** X16: in a store the worker can reach, a POST /api/players whose body
    passes the validation and whose name, lower-cased, is the lower-cased
    name of a player of the table is answered 409 and writes nothing. *)
Theorem duplicate_names_are_refused st id0 r id n skill :
  Store.reachable toLowerCase reports_name_lower st ->
  Store.players st !! id0 = Some r ->
  toLowerCase n = toLowerCase (PlayerRow.name r) ->
  Players.post_player (Js.String n) skill = Players.ToStore (n, skill) ->
  Store.post_player toLowerCase st id (Js.String n) skill
  = (st,
     Error 409
       ("Player with name " ++ Store.quote ++ n ++ Store.quote
        ++ " already exists.")%string).
Proof.
  intros Hreach Hr Hlower Hvalid. unfold Store.post_player.
  rewrite Hvalid.
  replace (Store.name_lower_taken (Store.players st) (toLowerCase n))
    with true; [reflexivity |].
  symmetry. apply name_lower_taken_spec. exists id0, r.
  split; [exact Hr |]. rewrite Hlower.
  exact (Store.lower_of_name toLowerCase st
           (reachable_well_formed toLowerCase reports_name_lower st Hreach)
           id0 r Hr).
Qed.

End StoreProperties.

Lemma example_requests_from_json :
  Forall Store.from_json Store.example_requests.
Proof. repeat constructor; discriminate. Qed.

Lemma example_store_reachable :
  Store.reachable Store.lower true Store.example_store.
Proof. apply store_run_reachable, example_requests_from_json. Qed.

Lemma names_unique_whatever_the_case_witness :
  "p1" = "p1".
Proof.
  apply (names_unique_whatever_the_case Store.lower true Store.example_store
           "p1" "p1"
           {| PlayerRow.name := "Bob"; PlayerRow.name_lower := "bob";
              PlayerRow.skill := Store.number 7 |}
           {| PlayerRow.name := "Bob"; PlayerRow.name_lower := "bob";
              PlayerRow.skill := Store.number 7 |}).
  - exact example_store_reachable.
  - vm_compute. reflexivity.
  - vm_compute. reflexivity.
  - reflexivity.
Defined.

Lemma stored_skills_between_1_and_10_witness :
  exists q,
    Store.number 3 = Js.Number (Js.Finite q) /\ (1 <= q)%Q /\ (q <= 10)%Q.
Proof.
  apply (stored_skills_between_1_and_10 Store.lower true Store.example_store
           "p2"
           {| PlayerRow.name := "Ann"; PlayerRow.name_lower := "ann";
              PlayerRow.skill := Store.number 3 |}).
  - exact example_store_reachable.
  - vm_compute. reflexivity.
Defined.

Lemma memberships_refer_to_rows_witness :
  is_Some (Store.outings Store.example_store !! "o1")
  /\ is_Some (Store.players Store.example_store !! "p2").
Proof.
  apply (memberships_refer_to_rows Store.lower true Store.example_store).
  - exact example_store_reachable.
  - apply (bool_decide_unpack _). vm_compute. reflexivity.
Defined.

Lemma errors_write_nothing_witness :
  (Store.handle Store.lower true Store.example_store
     (Store.PostPlayer "p3" (Js.String "BOB") (Store.number 5))).1
  = Store.example_store.
Proof.
  apply (errors_write_nothing Store.lower true Store.example_store
           (Store.PostPlayer "p3" (Js.String "BOB") (Store.number 5))).
  vm_compute. discriminate.
Defined.

Lemma duplicate_names_are_refused_witness :
  Store.post_player Store.lower Store.example_store "p3" (Js.String "BOB")
    (Store.number 5)
  = (Store.example_store,
     Error 409
       ("Player with name " ++ Store.quote ++ "BOB" ++ Store.quote
        ++ " already exists.")%string).
Proof.
  apply (duplicate_names_are_refused Store.lower true Store.example_store
           "p1"
           {| PlayerRow.name := "Bob"; PlayerRow.name_lower := "bob";
              PlayerRow.skill := Store.number 7 |}
           "p3" "BOB" (Store.number 5)).
  - exact example_store_reachable.
  - vm_compute. reflexivity.
  - reflexivity.
  - reflexivity.
Defined.

(** ** What is written is read back *)

(** X17: a player added with status 201 is the player that GET
    /api/players/:id then returns, with the name and the skill of the body;
    the other players, the outings and the memberships are as before. *)
Theorem posted_player_is_read_back (toLowerCase : string -> string) st st'
    id name skill p :
  Store.post_player toLowerCase st id name skill = (st', Json 201 p) ->
  id <> "" ->
  Store.get_player st' id
  = Json 200 (Store.Row (id, Js.string_of name, skill))
  /\ name = Js.String (Js.string_of name)
  /\ (forall id', id' <> id ->
        Store.players st' !! id' = Store.players st !! id')
  /\ Store.outings st' = Store.outings st
  /\ Store.outing_players st' = Store.outing_players st.
Proof.
  unfold Store.post_player. intros H Hid.
  destruct (Players.post_player name skill) as [r | [n v]] eqn:Hv.
  { destruct r; discriminate H. }
  apply post_player_to_store in Hv. destruct Hv as (-> & -> & _).
  destruct (Store.name_lower_taken _ _); [discriminate H |].
  destruct (_ || _); [discriminate H |].
  injection H as <- _. unfold Store.get_player. simpl.
  apply String.eqb_neq in Hid. rewrite Hid, lookup_insert_eq.
  repeat split. intros id' Hne. now rewrite lookup_insert_ne.
Qed.

(** X18: after a DELETE /api/players/:id answered 200 the player is not
    found any more and is in no outing; the other players, their
    memberships and the outings are as before. *)
Theorem deleted_player_is_gone st st' id p :
  Store.delete_player st id = (st', Json 200 p) ->
  Store.get_player st' id = Error 404 "Player not found."
  /\ (forall o, (o, id) ∉ Store.outing_players st')
  /\ (forall id', id' <> id ->
        Store.players st' !! id' = Store.players st !! id'
        /\ forall o, (o, id') ∈ Store.outing_players st'
                     <-> (o, id') ∈ Store.outing_players st)
  /\ Store.outings st' = Store.outings st.
Proof.
  unfold Store.delete_player. intros H.
  destruct (String.eqb id "") eqn:Hid; [discriminate H |].
  destruct (Store.players st !! id); [| discriminate H].
  injection H as <- _. unfold Store.get_player. simpl.
  rewrite Hid, lookup_delete_eq. repeat split.
  - intros o Hm. apply elem_of_filter in Hm. now destruct Hm.
  - now rewrite lookup_delete_ne.
  - intros Hm. apply elem_of_filter in Hm. now destruct Hm.
  - intros Hm. apply elem_of_filter. split; [simpl; congruence | exact Hm].
Qed.

(** X19: after a DELETE /api/outings/:id answered 200 the outing is not
    found any more and has no membership left; the other outings, their
    memberships and the players are as before. *)
Theorem deleted_outing_takes_its_memberships st st' id p :
  Store.delete_outing st id = (st', Json 200 p) ->
  Store.get_outing st' id = Error 404 "Outing not found."
  /\ (forall q, (id, q) ∉ Store.outing_players st')
  /\ (forall id', id' <> id ->
        Store.outings st' !! id' = Store.outings st !! id'
        /\ forall q, (id', q) ∈ Store.outing_players st'
                     <-> (id', q) ∈ Store.outing_players st)
  /\ Store.players st' = Store.players st.
Proof.
  unfold Store.delete_outing. intros H.
  destruct (String.eqb id "") eqn:Hid; [discriminate H |].
  destruct (Store.outings st !! id); [| discriminate H].
  injection H as <- _. unfold Store.get_outing. simpl.
  rewrite Hid, lookup_delete_eq. repeat split.
  - intros q Hm. apply elem_of_filter in Hm. now destruct Hm.
  - now rewrite lookup_delete_ne.
  - intros Hm. apply elem_of_filter in Hm. now destruct Hm.
  - intros Hm. apply elem_of_filter. split; [simpl; congruence | exact Hm].
Qed.

(** X20: adding a player to an outing (201) and removing the player from it
    brings the store back to what it was, and the removal is answered 200. *)
Theorem member_added_then_removed st st' outingId playerId p :
  Store.post_outing_player st outingId playerId = (st', Json 201 p) ->
  Store.delete_outing_player st' outingId (Js.string_of playerId)
  = (st, Json 200 (Store.Message "Player removed from outing successfully")).
Proof.
  unfold Store.post_outing_player. intros H.
  destruct (String.eqb outingId "") eqn:Ho; [discriminate H |].
  destruct (negb (Js.truthy playerId) || negb (Js.typeof_string playerId))
    eqn:Hp; [discriminate H |].
  destruct (Store.outings st !! outingId); [| discriminate H].
  destruct (Store.players st !! Js.string_of playerId); [| discriminate H].
  destruct (bool_decide _) eqn:Hm; [discriminate H |].
  apply bool_decide_eq_false in Hm.
  injection H as <- _. unfold Store.delete_outing_player. simpl.
  assert (Hne : String.eqb (Js.string_of playerId) "" = false).
  { destruct playerId as [| | b | x | s |]; simpl in Hp;
      rewrite ?orb_true_r in Hp; try discriminate Hp.
    simpl. now destruct (String.eqb s ""). }
  rewrite Ho, Hne. simpl.
  replace (({[(outingId, Js.string_of playerId)]} ∪ Store.outing_players st)
           ∖ {[(outingId, Js.string_of playerId)]})
    with (Store.outing_players st); [now rewrite store_eta |].
  apply leibniz_equiv. intros m.
  rewrite elem_of_difference, elem_of_union, elem_of_singleton.
  split; [| tauto]. intros Hin. split; [now right |]. now intros ->.
Qed.

Lemma posted_player_is_read_back_witness :
  let st' :=
    (Store.post_player Store.lower Store.example_store "p3"
       (Js.String "Cy") (Store.number 9)).1 in
  Store.get_player st' "p3" = Json 200 (Store.Row ("p3", "Cy", Store.number 9))
  /\ Js.String "Cy" = Js.String "Cy"
  /\ (forall id', id' <> "p3" ->
        Store.players st' !! id' = Store.players Store.example_store !! id')
  /\ Store.outings st' = Store.outings Store.example_store
  /\ Store.outing_players st' = Store.outing_players Store.example_store.
Proof.
  intros st'.
  apply (posted_player_is_read_back Store.lower Store.example_store st' "p3"
           (Js.String "Cy") (Store.number 9)
           (Store.Created "p3" "Cy" "cy" (Store.number 9))).
  - vm_compute. reflexivity.
  - discriminate.
Defined.

Lemma deleted_player_is_gone_witness :
  let st' := (Store.delete_player Store.example_store "p1").1 in
  Store.get_player st' "p1" = Error 404 "Player not found."
  /\ (forall o, (o, "p1") ∉ Store.outing_players st')
  /\ (forall id', id' <> "p1" ->
        Store.players st' !! id' = Store.players Store.example_store !! id'
        /\ forall o, (o, id') ∈ Store.outing_players st'
                     <-> (o, id') ∈ Store.outing_players Store.example_store)
  /\ Store.outings st' = Store.outings Store.example_store.
Proof.
  intros st'.
  apply (deleted_player_is_gone Store.example_store st' "p1"
           (Store.Message "Player deleted successfully")).
  vm_compute. reflexivity.
Defined.

Lemma deleted_outing_takes_its_memberships_witness :
  let st' := (Store.delete_outing Store.example_store "o1").1 in
  Store.get_outing st' "o1" = Error 404 "Outing not found."
  /\ (forall q, ("o1", q) ∉ Store.outing_players st')
  /\ (forall id', id' <> "o1" ->
        Store.outings st' !! id' = Store.outings Store.example_store !! id'
        /\ forall q, (id', q) ∈ Store.outing_players st'
                     <-> (id', q) ∈ Store.outing_players Store.example_store)
  /\ Store.players st' = Store.players Store.example_store.
Proof.
  intros st'.
  apply (deleted_outing_takes_its_memberships Store.example_store st' "o1"
           (Outings.Message "Outing deleted successfully")).
  vm_compute. reflexivity.
Defined.

Lemma member_added_then_removed_witness :
  let st := (Store.delete_outing_player Store.example_store "o1" "p2").1 in
  Store.delete_outing_player
    (Store.post_outing_player st "o1" (Js.String "p2")).1 "o1" "p2"
  = (st, Json 200 (Store.Message "Player removed from outing successfully")).
Proof.
  intros st.
  apply (member_added_then_removed st
           (Store.post_outing_player st "o1" (Js.String "p2")).1 "o1"
           (Js.String "p2")
           (Store.Message "Player added to outing successfully")).
  vm_compute. reflexivity.
Defined.



(** ** The listings *)

Lemma string_leb_spec s t :
  String.leb s t = true <-> s = t \/ String_as_OT.lt s t.
Proof.
  rewrite <- code_unit_compare_le.
  unfold String.leb, Generator.code_unit_compare.
  destruct (String.compare s t); split; (lia || discriminate || reflexivity).
Qed.

Lemma string_leb_trans s t u :
  String.leb s t = true -> String.leb t u = true -> String.leb s u = true.
Proof.
  rewrite !string_leb_spec. intros [-> | H1] [-> | H2]; auto.
  right. exact (String_as_OT.lt_trans _ _ _ H1 H2).
Qed.

Lemma StronglySorted_fmap_strong {A B : Type} (f : A -> B)
    (R1 : relation A) (R2 : relation B) (l : list A) :
  (forall x y, x ∈ l -> y ∈ l -> R1 x y -> R2 (f x) (f y)) ->
  StronglySorted R1 l -> StronglySorted R2 (f <$> l).
Proof.
  intros Himp Hs. induction Hs as [| x l Hl IH Hx]; simpl; constructor.
  - apply IH. intros a b Ha Hb. apply Himp; now right.
  - apply Forall_fmap, Forall_forall. intros y Hy.
    rewrite Forall_forall in Hx. apply Himp; [now left | now right | auto].
Qed.

(** The result of an [ORDER BY name_lower] on rows with distinct ids whose
    [name_lower] is the lower-cased [name]: the same rows, each once, in the
    order of the lower-cased names. *)
Lemma sorted_rows_spec (toLowerCase : string -> string)
    (l : list (string * PlayerRow.t)) :
  NoDup l.*1 ->
  (forall e, e ∈ l ->
     PlayerRow.name_lower e.2 = toLowerCase (PlayerRow.name e.2)) ->
  (forall id n v,
     (id, n, v) ∈ Store.sorted_rows l
     <-> exists r, (id, r) ∈ l /\ PlayerRow.name r = n
                   /\ PlayerRow.skill r = v)
  /\ NoDup (Store.sorted_rows l).*1.*1
  /\ StronglySorted
       (fun a b => String.leb (toLowerCase a.1.2) (toLowerCase b.1.2) = true)
       (Store.sorted_rows l).
Proof.
  intros Hnd Hlower. unfold Store.sorted_rows.
  set (R := fun e1 e2 : string * PlayerRow.t =>
              Is_true (String.leb (PlayerRow.name_lower e1.2)
                                  (PlayerRow.name_lower e2.2))).
  pose proof (merge_sort_Permutation R l) as Hperm.
  split; [| split].
  - intros id n v. rewrite list_elem_of_fmap. split.
    + intros ([id' r] & Heq & Hin). injection Heq as -> -> ->.
      exists r. now rewrite <- Hperm.
    + intros (r & Hin & <- & <-). exists (id, r). now rewrite Hperm.
  - rewrite <- !list_fmap_compose.
    rewrite (list_fmap_ext _ fst (merge_sort R l) (fun _ _ _ => eq_refl)).
    now rewrite Hperm.
  - apply (StronglySorted_fmap_strong Store.select R).
    + intros x y Hx Hy Hxy. rewrite Hperm in Hx, Hy. simpl.
      rewrite <- (Hlower x Hx), <- (Hlower y Hy).
      now apply Is_true_true.
    + apply Sorted_StronglySorted.
      * intros x y z Hxy Hyz. apply Is_true_true.
        apply Is_true_true in Hxy, Hyz.
        exact (string_leb_trans _ _ _ Hxy Hyz).
      * apply Sorted_merge_sort. intros x y. unfold R.
        destruct (String.leb_total (PlayerRow.name_lower x.2)
                    (PlayerRow.name_lower y.2)) as [H | H];
          [left | right]; now apply Is_true_true.
Qed.

Section Listings.

Variable toLowerCase : string -> string.
Variable reports_name_lower : bool.

(** X21: in a store the worker can reach, GET /api/players returns every
    player of the table exactly once, with its id, name and skill, in the
    order of the lower-cased names. *)
Theorem players_are_listed_in_name_order st :
  Store.reachable toLowerCase reports_name_lower st ->
  exists rows,
    Store.get_players st = Json 200 (Store.Rows rows)
    /\ (forall id n v,
          (id, n, v) ∈ rows
          <-> exists r, Store.players st !! id = Some r
                        /\ PlayerRow.name r = n /\ PlayerRow.skill r = v)
    /\ NoDup rows.*1.*1
    /\ StronglySorted
         (fun a b =>
            String.leb (toLowerCase a.1.2) (toLowerCase b.1.2) = true)
         rows.
Proof.
  intros Hreach.
  pose proof (reachable_well_formed toLowerCase reports_name_lower st Hreach)
    as Hwf.
  destruct (sorted_rows_spec toLowerCase (map_to_list (Store.players st)))
    as (Hin & Hnd & Hsorted).
  - apply NoDup_fst_map_to_list.
  - intros [id r] He. apply elem_of_map_to_list in He.
    exact (Store.lower_of_name toLowerCase st Hwf id r He).
  - eexists. split; [reflexivity |]. split; [| now split].
    intros id n v. rewrite Hin.
    split; intros (r & Hr & Hn); exists r; split; try exact Hn;
      now apply elem_of_map_to_list.
Qed.

(** X22: in a store the worker can reach, GET /api/outings/:outingId/players
    on an outing of the table returns exactly the players that are members of
    the outing, each once, in the order of the lower-cased names. *)
Theorem members_are_listed_in_name_order st outingId o :
  Store.reachable toLowerCase reports_name_lower st ->
  outingId <> "" ->
  Store.outings st !! outingId = Some o ->
  exists rows,
    Store.get_outing_players st outingId = Json 200 (Store.Rows rows)
    /\ (forall id n v,
          (id, n, v) ∈ rows
          <-> (outingId, id) ∈ Store.outing_players st
              /\ exists r, Store.players st !! id = Some r
                           /\ PlayerRow.name r = n /\ PlayerRow.skill r = v)
    /\ NoDup rows.*1.*1
    /\ StronglySorted
         (fun a b =>
            String.leb (toLowerCase a.1.2) (toLowerCase b.1.2) = true)
         rows.
Proof.
  intros Hreach Hid Ho.
  pose proof (reachable_well_formed toLowerCase reports_name_lower st Hreach)
    as Hwf.
  destruct (sorted_rows_spec toLowerCase (Store.members st outingId))
    as (Hin & Hnd & Hsorted).
  - unfold Store.members.
    apply (sublist_NoDup _ (map_to_list (Store.players st)).*1);
      [apply NoDup_fst_map_to_list |].
    apply fmap_sublist, sublist_filter.
  - intros [id r] He. unfold Store.members in He.
    apply list_elem_of_filter in He. destruct He as [_ He].
    apply elem_of_map_to_list in He.
    exact (Store.lower_of_name toLowerCase st Hwf id r He).
  - unfold Store.get_outing_players. apply String.eqb_neq in Hid.
    rewrite Hid, Ho. eexists. split; [reflexivity |].
    split; [| now split].
    intros id n v. rewrite Hin. unfold Store.members. split.
    + intros (r & Hr & Hn). apply list_elem_of_filter in Hr.
      destruct Hr as [Hm Hr]. apply elem_of_map_to_list in Hr.
      split; [exact Hm | eauto].
    + intros (Hm & r & Hr & Hn). exists r. split; [| exact Hn].
      apply list_elem_of_filter. split; [exact Hm |].
      now apply elem_of_map_to_list.
Qed.

End Listings.

Lemma players_are_listed_in_name_order_witness :
  exists rows,
    Store.get_players Store.example_store = Json 200 (Store.Rows rows)
    /\ (forall id n v,
          (id, n, v) ∈ rows
          <-> exists r, Store.players Store.example_store !! id = Some r
                        /\ PlayerRow.name r = n /\ PlayerRow.skill r = v)
    /\ NoDup rows.*1.*1
    /\ StronglySorted
         (fun a b =>
            String.leb (Store.lower a.1.2) (Store.lower b.1.2) = true)
         rows.
Proof.
  exact (players_are_listed_in_name_order Store.lower true
           Store.example_store example_store_reachable).
Defined.

Lemma members_are_listed_in_name_order_witness :
  exists rows,
    Store.get_outing_players Store.example_store "o1"
    = Json 200 (Store.Rows rows)
    /\ (forall id n v,
          (id, n, v) ∈ rows
          <-> ("o1", id) ∈ Store.outing_players Store.example_store
              /\ exists r, Store.players Store.example_store !! id = Some r
                           /\ PlayerRow.name r = n /\ PlayerRow.skill r = v)
    /\ NoDup rows.*1.*1
    /\ StronglySorted
         (fun a b =>
            String.leb (Store.lower a.1.2) (Store.lower b.1.2) = true)
         rows.
Proof.
  apply (members_are_listed_in_name_order Store.lower true
           Store.example_store "o1"
           {| Outings.name := "Open"; Outings.number_of_groups := 3 |}).
  - exact example_store_reachable.
  - discriminate.
  - vm_compute. reflexivity.
Defined.

(** ** Updates *)

(** X23: what a PUT /api/players/:id answered 200 has done.  When the id is
    the id of a player, the name and the skill that the body provides have
    changed and nothing else: the answer, and a GET of the player afterwards,
    show the new values for the keys of the body and the old ones for the
    others; the other players, the outings and the memberships are as before.
    When no player has the id, the body of the answer is [null], nothing is
    written, and a GET of the id is answered 404: the handler never sends
    its own 404. *)
Theorem player_update_changes_what_was_sent (toLowerCase : string -> string)
    (reports_name_lower : bool) st st' id name skill p :
  Store.put_player toLowerCase reports_name_lower st id name skill
  = (st', Json 200 p) ->
  match Store.players st !! id with
  | Some row =>
      p = Store.Row
            (id,
             if Js.is_undefined name then PlayerRow.name row
             else Js.string_of name,
             if Js.is_undefined skill then PlayerRow.skill row else skill)
      /\ Store.get_player st' id = Json 200 p
      /\ (forall id', id' <> id ->
            Store.players st' !! id' = Store.players st !! id')
      /\ Store.outings st' = Store.outings st
      /\ Store.outing_players st' = Store.outing_players st
  | None =>
      p = Store.Null
      /\ st' = st
      /\ Store.get_player st' id = Error 404 "Player not found."
  end.
Proof.
  unfold Store.put_player. intros H.
  destruct (Players.put_player id name skill) as [r | [nu su]] eqn:Hv.
  { destruct r; discriminate H. }
  apply put_player_to_store in Hv.
  destruct Hv as (Hid & -> & _ & -> & _).
  apply String.eqb_neq in Hid.
  destruct (Store.players st !! id) as [row |] eqn:Hrow.
  - destruct (_ && _); [discriminate H |].
    destruct (_ || _); [discriminate H |].
    injection H as <- <-.
    unfold Store.get_player. simpl.
    rewrite Hid, lookup_insert_eq.
    unfold Store.select. simpl.
    destruct (Js.is_undefined name), (Js.is_undefined skill); simpl;
      repeat split; intros id' Hne; now rewrite lookup_insert_ne.
  - injection H as <- <-. unfold Store.get_player.
    now rewrite Hid, Hrow.
Qed.

Section Recase.

Variable toLowerCase : string -> string.
Variable reports_name_lower : bool.

(** X26: in a store the worker can reach, a player can be renamed to a name
    that differs from its own in case only: the PUT is answered 200 with the
    new name, whichever UNIQUE constraint the store checks first. *)
Theorem player_can_change_the_case_of_its_name st id row n :
  Store.reachable toLowerCase reports_name_lower st ->
  Store.players st !! id = Some row ->
  Players.put_player id (Js.String n) Js.Undefined
  = Players.ToStore (Some n, None) ->
  toLowerCase n = toLowerCase (PlayerRow.name row) ->
  (Store.put_player toLowerCase reports_name_lower st id (Js.String n)
     Js.Undefined).2
  = Json 200 (Store.Row (id, n, PlayerRow.skill row)).
Proof.
  intros Hreach Hrow Hvalid Hlower.
  pose proof (reachable_well_formed toLowerCase reports_name_lower st Hreach)
    as Hwf.
  unfold Store.put_player. rewrite Hvalid, Hrow. cbn [from_option].
  assert (Hfree : Store.name_lower_taken (delete id (Store.players st))
                    (toLowerCase n) = false).
  { destruct (Store.name_lower_taken _ _) eqn:E; [| reflexivity].
    apply name_lower_taken_spec in E. destruct E as (i & r & Hr & Heq).
    apply lookup_delete_Some in Hr. destruct Hr as [Hne Hr].
    exfalso. apply Hne. symmetry.
    apply (Store.lower_unique toLowerCase st Hwf i id r row Hr Hrow).
    rewrite Heq, Hlower. symmetry.
    exact (Store.lower_of_name toLowerCase st Hwf id row Hrow). }
  assert (Hexact : Store.name_taken (delete id (Store.players st)) n
                   = false).
  { unfold Store.name_taken. apply bool_decide_eq_false.
    rewrite map_Exists_lookup. intros (i & r & Hr & Heq).
    apply lookup_delete_Some in Hr. destruct Hr as [Hne Hr].
    apply Hne. symmetry.
    apply (Store.lower_unique toLowerCase st Hwf i id r row Hr Hrow).
    rewrite (Store.lower_of_name toLowerCase st Hwf i r Hr),
      (Store.lower_of_name toLowerCase st Hwf id row Hrow).
    now rewrite Heq. }
  rewrite Hfree, Hexact. reflexivity.
Qed.

End Recase.

Lemma player_update_changes_what_was_sent_witness :
  let st' :=
    (Store.put_player Store.lower true Store.example_store "p2"
       Js.Undefined (Store.number 8)).1 in
  Store.Row ("p2", "Ann", Store.number 8)
  = Store.Row ("p2", "Ann", Store.number 8)
  /\ Store.get_player st' "p2"
     = Json 200 (Store.Row ("p2", "Ann", Store.number 8))
  /\ (forall id', id' <> "p2" ->
        Store.players st' !! id' = Store.players Store.example_store !! id')
  /\ Store.outings st' = Store.outings Store.example_store
  /\ Store.outing_players st' = Store.outing_players Store.example_store.
Proof.
  intros st'.
  assert (H : Store.put_player Store.lower true Store.example_store "p2"
                Js.Undefined (Store.number 8)
              = (st', Json 200 (Store.Row ("p2", "Ann", Store.number 8))))
    by (vm_compute; reflexivity).
  pose proof (player_update_changes_what_was_sent Store.lower true
                Store.example_store st' "p2" Js.Undefined (Store.number 8)
                (Store.Row ("p2", "Ann", Store.number 8)) H) as Hw.
  change (Store.players Store.example_store !! "p2")
    with (Some {| PlayerRow.name := "Ann"; PlayerRow.name_lower := "ann";
                  PlayerRow.skill := Store.number 3 |}) in Hw.
  exact Hw.
Defined.

Lemma player_can_change_the_case_of_its_name_witness :
  (Store.put_player Store.lower true Store.example_store "p2"
     (Js.String "ANN") Js.Undefined).2
  = Json 200 (Store.Row ("p2", "ANN", Store.number 3)).
Proof.
  apply (player_can_change_the_case_of_its_name Store.lower true
           Store.example_store "p2"
           {| PlayerRow.name := "Ann"; PlayerRow.name_lower := "ann";
              PlayerRow.skill := Store.number 3 |} "ANN").
  - exact example_store_reachable.
  - vm_compute. reflexivity.
  - reflexivity.
  - reflexivity.
Defined.

(** X24: what a PUT /api/outings/:id answered 200 has done.  When the id is
    the id of an outing, the name and the group count that the body provides
    have changed and nothing else, and a GET of the outing afterwards returns
    the row of the answer; the other outings, the players and the memberships
    are as before.  When no outing has the id, the body of the answer is
    [null], nothing is written, and a GET of the id is answered 404. *)
Theorem outing_update_changes_what_was_sent st st' id name numberOfGroups p :
  Store.put_outing st id name numberOfGroups = (st', Json 200 p) ->
  match Store.outings st !! id with
  | Some o =>
      p = Outings.Row id
            {| Outings.name :=
                 if Js.is_undefined name then Outings.name o
                 else Js.string_of name;
               Outings.number_of_groups :=
                 if Js.is_undefined numberOfGroups
                 then Outings.number_of_groups o
                 else Js.to_Z numberOfGroups |}
      /\ Store.get_outing st' id = Json 200 p
      /\ (forall id', id' <> id ->
            Store.outings st' !! id' = Store.outings st !! id')
      /\ Store.players st' = Store.players st
      /\ Store.outing_players st' = Store.outing_players st
  | None =>
      p = Outings.Null
      /\ st' = st
      /\ Store.get_outing st' id = Error 404 "Outing not found."
  end.
Proof.
  unfold Store.put_outing, Outings.put_outing. intros H.
  destruct (String.eqb id "") eqn:Hid; [discriminate H |].
  destruct (Js.is_undefined name && Js.is_undefined numberOfGroups);
    [discriminate H |].
  destruct (negb (Js.is_undefined name) && Js.not_a_non_empty_string name);
    [discriminate H |].
  destruct (negb (Js.is_undefined numberOfGroups)
            && Outings.not_a_positive_integer numberOfGroups);
    [discriminate H |].
  destruct (Js.is_undefined name), (Js.is_undefined numberOfGroups);
    try discriminate H;
    (destruct (Store.outings st !! id) as [o |] eqn:Ho;
     [ injection H as <- <-;
       unfold Store.get_outing; simpl; rewrite Hid, lookup_insert_eq;
       repeat split; intros id' Hne; now rewrite lookup_insert_ne
     | injection H as <- <-; unfold Store.get_outing; simpl;
       rewrite Hid, Ho; repeat split; apply store_eta ]).
Qed.

(** X25: an outing created with status 201 is the outing that GET
    /api/outings/:id then returns, with the name of the body and its group
    count, or 3 when the body has none; the count is at least 1 and the
    other outings, the players and the memberships are as before. *)
Theorem posted_outing_is_read_back st st' id name numberOfGroups p :
  Store.post_outing st id name numberOfGroups = (st', Json 201 p) ->
  id <> "" ->
  exists count,
    count = (if Js.is_undefined numberOfGroups then 3%Z
             else Js.to_Z numberOfGroups)
    /\ (1 <= count)%Z
    /\ Store.get_outing st' id
       = Json 200
           (Outings.Row id {| Outings.name := Js.string_of name;
                              Outings.number_of_groups := count |})
    /\ (forall id', id' <> id ->
          Store.outings st' !! id' = Store.outings st !! id')
    /\ Store.players st' = Store.players st
    /\ Store.outing_players st' = Store.outing_players st.
Proof.
  unfold Store.post_outing, Outings.post_outing. intros H Hid.
  destruct (negb (Js.truthy name) || Js.not_a_non_empty_string name);
    [discriminate H |].
  destruct (negb (Js.is_undefined numberOfGroups)
            && Outings.not_a_positive_integer numberOfGroups) eqn:Hn;
    [discriminate H |].
  destruct (Store.outings st !! id); [discriminate H |].
  injection H as <- _. eexists. split; [reflexivity |].
  split; [now apply accepted_number_of_groups |].
  unfold Store.get_outing. simpl.
  apply String.eqb_neq in Hid. rewrite Hid, lookup_insert_eq.
  repeat split. intros id' Hne. now rewrite lookup_insert_ne.
Qed.

Lemma outing_update_changes_what_was_sent_witness :
  let st' :=
    (Store.put_outing Store.example_store "o1" (Js.String "Cup")
       Js.Undefined).1 in
  Outings.Row "o1" {| Outings.name := "Cup";
                      Outings.number_of_groups := 3 |}
  = Outings.Row "o1" {| Outings.name := "Cup";
                        Outings.number_of_groups := 3 |}
  /\ Store.get_outing st' "o1"
     = Json 200
         (Outings.Row "o1" {| Outings.name := "Cup";
                              Outings.number_of_groups := 3 |})
  /\ (forall id', id' <> "o1" ->
        Store.outings st' !! id' = Store.outings Store.example_store !! id')
  /\ Store.players st' = Store.players Store.example_store
  /\ Store.outing_players st' = Store.outing_players Store.example_store.
Proof.
  intros st'.
  assert (H : Store.put_outing Store.example_store "o1" (Js.String "Cup")
                Js.Undefined
              = (st',
                 Json 200
                   (Outings.Row "o1"
                      {| Outings.name := "Cup";
                         Outings.number_of_groups := 3 |})))
    by (vm_compute; reflexivity).
  pose proof (outing_update_changes_what_was_sent Store.example_store st'
                "o1" (Js.String "Cup") Js.Undefined _ H) as Hw.
  change (Store.outings Store.example_store !! "o1")
    with (Some {| Outings.name := "Open";
                  Outings.number_of_groups := 3 |}) in Hw.
  exact Hw.
Defined.

Lemma posted_outing_is_read_back_witness :
  let st' :=
    (Store.post_outing Store.example_store "o2" (Js.String "Cup")
       (Store.number 2)).1 in
  exists count,
    count = 2%Z
    /\ (1 <= count)%Z
    /\ Store.get_outing st' "o2"
       = Json 200
           (Outings.Row "o2" {| Outings.name := "Cup";
                                Outings.number_of_groups := count |})
    /\ (forall id', id' <> "o2" ->
          Store.outings st' !! id' = Store.outings Store.example_store !! id')
    /\ Store.players st' = Store.players Store.example_store
    /\ Store.outing_players st' = Store.outing_players Store.example_store.
Proof.
  intros st'.
  apply (posted_outing_is_read_back Store.example_store st' "o2"
           (Js.String "Cup") (Store.number 2)
           (Outings.Created "o2" "Cup" 2)).
  - vm_compute. reflexivity.
  - discriminate.
Defined.

(** ** What the bodies must hold *)

Lemma non_blank_string n :
  negb (Js.truthy (Js.String n)) || Js.not_a_non_empty_string (Js.String n)
  = false
  <-> Js.trim n <> "".
Proof.
  simpl. rewrite orb_false_iff, negb_false_iff, negb_true_iff,
    String.eqb_neq, Nat.eqb_neq. split.
  - intros [_ H] Heq. apply H. now rewrite Heq.
  - intros H. split.
    + intros ->. now apply H.
    + destruct (Js.trim n); [congruence | discriminate].
Qed.

(** White space is the white space of [String.prototype.trim], not of the
    7-bit characters only: a name made of a no-break space (U+00A0, bytes C2
    A0), an ideographic space (U+3000, E3 80 80), a byte order mark (U+FEFF,
    EF BB BF) and a tab is blank, and the handler answers 400; a name that
    holds a letter between two no-break spaces is not. *)
Example blank_names :
  let byte n := ascii_of_nat n in
  let str := fold_right String.String EmptyString in
  let blank :=
    str [byte 194; byte 160; byte 227; byte 128; byte 128;
         byte 239; byte 187; byte 191; byte 9] in
  let letter := str [byte 194; byte 160; byte 97; byte 194; byte 160] in
  Js.trim blank = EmptyString
  /\ Players.post_player (Js.String blank) (Js.Number (Js.Finite 5))
     = Players.Answer
         (Error 400
            "Player name is required and must be a non-empty string.")
  /\ Js.trim letter = str [byte 97]
  /\ Players.post_player (Js.String letter) (Js.Number (Js.Finite 5))
     = Players.ToStore (letter, Js.Number (Js.Finite 5)).
Proof. repeat split; vm_compute; reflexivity. Qed.

(** X27: POST /api/players lets a body through to the store exactly when its
    name is a string with something else than white space in it and its skill
    is a number from 1 to 10 (NaN, which no JSON body holds, apart); every
    other body is answered without the store being touched. *)
Theorem player_body_accepted_iff name skill :
  (exists fields, Players.post_player name skill = Players.ToStore fields)
  <-> (exists n, name = Js.String n /\ Js.trim n <> "")
      /\ Players.passes_skill_test skill.
Proof.
  split.
  - intros [[n v] H]. pose proof (post_player_to_store _ _ _ _ H)
      as (-> & _ & Htest).
    split; [| exact Htest]. exists n. split; [reflexivity |].
    apply non_blank_string. unfold Players.post_player in H.
    destruct (negb (Js.truthy (Js.String n))
              || Js.not_a_non_empty_string (Js.String n));
      [discriminate H | reflexivity].
  - intros [(n & -> & Hn) Htest]. unfold Players.post_player.
    rewrite (proj2 (non_blank_string n) Hn).
    rewrite (proj2 (skill_test_spec skill) Htest). eauto.
Qed.

(** X28: a player that has just been added to an outing cannot be added to
    it again: the second POST is answered 409 and writes nothing. *)
Theorem member_cannot_be_added_twice st st' outingId playerId p :
  Store.post_outing_player st outingId playerId = (st', Json 201 p) ->
  Store.post_outing_player st' outingId playerId
  = (st', Error 409 "Player is already in this outing.").
Proof.
  unfold Store.post_outing_player. intros H.
  destruct (String.eqb outingId ""); [discriminate H |].
  destruct (negb (Js.truthy playerId) || negb (Js.typeof_string playerId));
    [discriminate H |].
  destruct (Store.outings st !! outingId) eqn:Ho; [| discriminate H].
  destruct (Store.players st !! Js.string_of playerId) eqn:Hp;
    [| discriminate H].
  destruct (bool_decide _); [discriminate H |].
  injection H as <- _. simpl. rewrite Ho, Hp.
  now rewrite bool_decide_eq_true_2 by (apply elem_of_union_l; set_solver).
Qed.

Lemma member_cannot_be_added_twice_witness :
  let st := (Store.delete_outing_player Store.example_store "o1" "p2").1 in
  let st' := (Store.post_outing_player st "o1" (Js.String "p2")).1 in
  Store.post_outing_player st' "o1" (Js.String "p2")
  = (st', Error 409 "Player is already in this outing.").
Proof.
  intros st st'.
  apply (member_cannot_be_added_twice st st' "o1" (Js.String "p2")
           (Store.Message "Player added to outing successfully")).
  vm_compute. reflexivity.
Defined.

Section Rename.

Variable toLowerCase : string -> string.
Variable reports_name_lower : bool.

(** X29: in a store the worker can reach, renaming a player to a name that,
    lower-cased, is the lower-cased name of another player is refused and
    writes nothing.  The answer is 409 when the two names differ in case, or
    when the store reports the constraint on [name_lower]; it is 500 when
    the two names are equal and the store reports the constraint on [name]. *)
Theorem rename_to_a_taken_name_is_refused st id row id0 r0 n skill :
  Store.reachable toLowerCase reports_name_lower st ->
  Store.players st !! id = Some row ->
  Store.players st !! id0 = Some r0 ->
  id0 <> id ->
  (exists skill_update,
     Players.put_player id (Js.String n) skill
     = Players.ToStore (Some n, skill_update)) ->
  toLowerCase n = toLowerCase (PlayerRow.name r0) ->
  exists status message,
    Store.put_player toLowerCase reports_name_lower st id (Js.String n) skill
    = (st, Error status message)
    /\ status = (if negb (String.eqb n (PlayerRow.name r0))
                    || reports_name_lower
                 then 409%Z else 500%Z).
Proof.
  intros Hreach Hrow Hr0 Hne [su Hvalid] Hlower.
  pose proof (reachable_well_formed toLowerCase reports_name_lower st Hreach)
    as Hwf.
  unfold Store.put_player. rewrite Hvalid, Hrow. cbn [from_option].
  assert (Htaken : Store.name_lower_taken (delete id (Store.players st))
                     (toLowerCase n) = true).
  { apply name_lower_taken_spec. exists id0, r0.
    split; [now rewrite lookup_delete_ne |]. rewrite Hlower.
    exact (Store.lower_of_name toLowerCase st Hwf id0 r0 Hr0). }
  assert (Hexact : Store.name_taken (delete id (Store.players st)) n
                   = String.eqb n (PlayerRow.name r0)).
  { unfold Store.name_taken.
    destruct (String.eqb_spec n (PlayerRow.name r0)) as [-> | Hn].
    - apply bool_decide_eq_true. apply map_Exists_lookup. exists id0, r0.
      split; [now rewrite lookup_delete_ne | reflexivity].
    - apply bool_decide_eq_false. rewrite map_Exists_lookup.
      intros (i & r & Hr & Heq). apply lookup_delete_Some in Hr.
      destruct Hr as [_ Hr]. apply Hn. rewrite <- Heq. f_equal.
      assert (i = id0); [| congruence].
      apply (Store.lower_unique toLowerCase st Hwf i id0 r r0 Hr Hr0).
      rewrite (Store.lower_of_name toLowerCase st Hwf i r Hr),
        (Store.lower_of_name toLowerCase st Hwf id0 r0 Hr0).
      now rewrite Heq, Hlower. }
  rewrite Htaken, Hexact. cbn [andb orb].
  destruct (negb (String.eqb n (PlayerRow.name r0)) || reports_name_lower);
    eauto.
Qed.

End Rename.

Lemma rename_to_a_taken_name_is_refused_witness :
  exists status message,
    Store.put_player Store.lower true Store.example_store "p2"
      (Js.String "BOB") Js.Undefined
    = (Store.example_store, Error status message)
    /\ status = 409%Z.
Proof.
  apply (rename_to_a_taken_name_is_refused Store.lower true
           Store.example_store "p2"
           {| PlayerRow.name := "Ann"; PlayerRow.name_lower := "ann";
              PlayerRow.skill := Store.number 3 |}
           "p1"
           {| PlayerRow.name := "Bob"; PlayerRow.name_lower := "bob";
              PlayerRow.skill := Store.number 7 |}
           "BOB" Js.Undefined).
  - exact example_store_reachable.
  - vm_compute. reflexivity.
  - vm_compute. reflexivity.
  - discriminate.
  - exists None. reflexivity.
  - reflexivity.
Defined.
